(** * LSB image steganography: the codec of [steganographyService.ts]

    A shallow embedding of the text/bit codec and of the pixel walk of
    [encodeTextInImage] and [decodeTextFromImage], and the properties
    of the specification proved (or refuted) about it.

    Conventions.
    - A JavaScript string is the list of its UTF-16 code units, each an
      integer in [0, 65535]; the "binary strings" of the source are such
      strings over the characters '0' (48) and '1' (49).
    - A JavaScript Number that holds an integer is a [Z]; [NaN] is the
      [None] of [option Z].  Counters and indices, which the source only
      ever increments from 0, are [nat].
    - The pixel buffer [imageData.data] (a [Uint8ClampedArray]) is a
      [list Z], read with [!!] and written with [<[ i := v ]>]; its
      elements are bytes, which no property below needs to assume.
    - The service is modelled from the point where it holds the pixel
      buffer: decoding the file into a canvas and encoding the canvas back
      into a PNG belong to the browser. *)

From Stdlib Require Import ZArith Lia ZifyNat List Bool.
From stdpp Require Import base list numbers.

Local Open Scope Z_scope.

(* [lia] also decides quotients and remainders by constants. *)
Ltac Zify.zify_post_hook ::= Z.div_mod_to_equations.

Abbreviation js_string := (list Z).

Definition chr_0 : Z := 48.
Definition chr_1 : Z := 49.
Definition chr_minus : Z := 45.
Definition chr_plus : Z := 43.

(** ** Builtins of the language *)

Module JS.

(** [Number.prototype.toString(2)] on an integer: the binary digits, most
    significant first, without leading zeros; a minus sign for negatives. *)
Fixpoint pos_toString2 (p : positive) : js_string :=
  match p with
  | xH => [chr_1]
  | xO q => pos_toString2 q ++ [chr_0]
  | xI q => pos_toString2 q ++ [chr_1]
  end.

Definition toString2 (n : Z) : js_string :=
  match n with
  | Z0 => [chr_0]
  | Zpos p => pos_toString2 p
  | Zneg p => chr_minus :: pos_toString2 p
  end.

(** [Number.prototype.toString()] (radix 10) on an integer. *)
Fixpoint digits10 (fuel : nat) (n : Z) : js_string :=
  match fuel with
  | O => []
  | S fuel' =>
      if n <? 10 then [chr_0 + n]
      else digits10 fuel' (n / 10) ++ [chr_0 + n mod 10]
  end.

Definition toString10 (n : Z) : js_string :=
  if n <? 0 then chr_minus :: digits10 (S (Z.to_nat (Z.log2 (- n)))) (- n)
  else digits10 (S (Z.to_nat (Z.log2 n))) n.

(** [String.prototype.padStart(targetLength, c)] with a one-character pad
    and [String.prototype.repeat] of a one-character string. *)
Definition padStart (s : js_string) (targetLength : nat) (c : Z) : js_string :=
  replicate (targetLength - length s)%nat c ++ s.

Definition repeat1 (c : Z) (count : nat) : js_string := replicate count c.

(** [String.prototype.substring(a, b)] for [a <= b]. *)
Definition substring (s : js_string) (a b : nat) : js_string :=
  take (b - a)%nat (drop a s).

(** The WhiteSpace and LineTerminator code units that [parseInt] skips. *)
Definition is_white_space (c : Z) : bool :=
  bool_decide (c ∈ [9; 10; 11; 12; 13; 32; 160; 5760; 8232; 8233; 8239;
                    8287; 12288; 65279])
  || ((8192 <=? c) && (c <=? 8202)).

Fixpoint skip_white_space (s : js_string) : js_string :=
  match s with
  | c :: rest => if is_white_space c then skip_white_space rest else s
  | [] => []
  end.

Definition digit_value (c : Z) : option Z :=
  if (48 <=? c) && (c <=? 57) then Some (c - 48)
  else if (97 <=? c) && (c <=? 122) then Some (c - 97 + 10)
  else if (65 <=? c) && (c <=? 90) then Some (c - 65 + 10)
  else None.

(** The longest prefix of digits below the radix, read as a number;
    [acc] is [None] until a first digit has been read. *)
Fixpoint parse_digits (radix : Z) (s : js_string) (acc : option Z) : option Z :=
  match s with
  | [] => acc
  | c :: rest =>
      match digit_value c with
      | Some d =>
          if d <? radix
          then parse_digits radix rest (Some (radix * default 0 acc + d))
          else acc
      | None => acc
      end
  end.

(** [parseInt(s, radix)] for a radix in 2..36 other than 16 (the source
    uses 2 and 10): skip white space, read a sign, read the digits; [NaN]
    when there is no digit.  The value is exact below 2^53. *)
Definition parseInt (s : js_string) (radix : Z) : option Z :=
  let s1 := skip_white_space s in
  let '(sign, s2) :=
    match s1 with
    | c :: rest =>
        if c =? chr_minus then (-1, rest)
        else if c =? chr_plus then (1, rest)
        else (1, s1)
    | [] => (1, s1)
    end in
  (fun v => sign * v) <$> parse_digits radix s2 None.

(** [ToInt32], applied by the bitwise operators to their operands. *)
Definition ToInt32 (x : option Z) : Z :=
  match x with
  | None => 0
  | Some z => (z + 2 ^ 31) mod 2 ^ 32 - 2 ^ 31
  end.

(** [ToUint8], applied when a Number is stored in a [Uint8Array]. *)
Definition ToUint8 (x : option Z) : Z :=
  match x with
  | None => 0
  | Some z => z mod 256
  end.

(** [ToUint8Clamp], applied when an integer is stored in a
    [Uint8ClampedArray]. *)
Definition ToUint8Clamp (z : Z) : Z := Z.max 0 (Z.min 255 z).

End JS.

(** ** The encoding platform: [TextEncoder] and [TextDecoder]

    Shifts and masks of the Encoding Standard are written as quotients and
    remainders by powers of two. *)

Module Encoding.

Definition is_high_surrogate (u : Z) : bool := (0xD800 <=? u) && (u <=? 0xDBFF).
Definition is_low_surrogate (u : Z) : bool := (0xDC00 <=? u) && (u <=? 0xDFFF).

(** Conversion of a string to a sequence of scalar values: a surrogate
    pair is one code point, an unpaired surrogate becomes U+FFFD. *)
Fixpoint to_scalar_values (s : js_string) : list Z :=
  match s with
  | [] => []
  | u :: rest =>
      if is_high_surrogate u then
        match rest with
        | v :: rest' =>
            if is_low_surrogate v
            then (0x10000 + (u - 0xD800) * 0x400 + (v - 0xDC00))
                   :: to_scalar_values rest'
            else 0xFFFD :: to_scalar_values rest
        | [] => [0xFFFD]
        end
      else if is_low_surrogate u then 0xFFFD :: to_scalar_values rest
      else u :: to_scalar_values rest
  end.

(** The UTF-8 encoder, one code point. *)
Definition utf8_encode_code_point (cp : Z) : list Z :=
  if cp <=? 0x7F then [cp]
  else if cp <=? 0x7FF then
    [0xC0 + cp / 64; 0x80 + cp mod 64]
  else if cp <=? 0xFFFF then
    [0xE0 + cp / 4096; 0x80 + (cp / 64) mod 64; 0x80 + cp mod 64]
  else
    [0xF0 + cp / 262144; 0x80 + (cp / 4096) mod 64;
     0x80 + (cp / 64) mod 64; 0x80 + cp mod 64].

(** [new TextEncoder().encode(text)]. *)
Definition TextEncoder_encode (text : js_string) : list Z :=
  concat (utf8_encode_code_point <$> to_scalar_values text).

(** The state of the UTF-8 decoder. *)
Record utf8_decoder := {
  code_point : Z;
  bytes_seen : Z;
  bytes_needed : Z;
  lower_boundary : Z;
  upper_boundary : Z
}.

Definition utf8_decoder_init : utf8_decoder :=
  {| code_point := 0; bytes_seen := 0; bytes_needed := 0;
     lower_boundary := 0x80; upper_boundary := 0xBF |}.

Inductive handler_result :=
| Continue (st : utf8_decoder)
| Emit (cp : Z) (st : utf8_decoder)
| DecodeError.

(** The handler of the UTF-8 decoder for one byte. *)
Definition utf8_handler (st : utf8_decoder) (byte : Z) : handler_result :=
  if bytes_needed st =? 0 then
    if (0 <=? byte) && (byte <=? 0x7F) then Emit byte st
    else if (0xC2 <=? byte) && (byte <=? 0xDF) then
      Continue {| code_point := byte mod 32; bytes_seen := 0; bytes_needed := 1;
                  lower_boundary := 0x80; upper_boundary := 0xBF |}
    else if (0xE0 <=? byte) && (byte <=? 0xEF) then
      Continue {| code_point := byte mod 16; bytes_seen := 0; bytes_needed := 2;
                  lower_boundary := if byte =? 0xE0 then 0xA0 else 0x80;
                  upper_boundary := if byte =? 0xED then 0x9F else 0xBF |}
    else if (0xF0 <=? byte) && (byte <=? 0xF4) then
      Continue {| code_point := byte mod 8; bytes_seen := 0; bytes_needed := 3;
                  lower_boundary := if byte =? 0xF0 then 0x90 else 0x80;
                  upper_boundary := if byte =? 0xF4 then 0x8F else 0xBF |}
    else DecodeError
  else if negb ((lower_boundary st <=? byte) && (byte <=? upper_boundary st))
  then DecodeError
  else
    let cp := code_point st * 64 + byte mod 64 in
    let seen := bytes_seen st + 1 in
    if seen =? bytes_needed st then Emit cp utf8_decoder_init
    else Continue {| code_point := cp; bytes_seen := seen;
                     bytes_needed := bytes_needed st;
                     lower_boundary := 0x80; upper_boundary := 0xBF |}.

(** Running the decoder in fatal mode: [None] is the [TypeError]. *)
Fixpoint utf8_decode_from (st : utf8_decoder) (bytes : list Z) : option (list Z) :=
  match bytes with
  | [] => if bytes_needed st =? 0 then Some [] else None
  | b :: rest =>
      match utf8_handler st b with
      | DecodeError => None
      | Continue st' => utf8_decode_from st' rest
      | Emit cp st' => cons cp <$> utf8_decode_from st' rest
      end
  end.

(** A code point as UTF-16 code units. *)
Definition utf16_of_code_point (cp : Z) : js_string :=
  if cp <=? 0xFFFF then [cp]
  else [0xD800 + (cp - 0x10000) / 0x400; 0xDC00 + (cp - 0x10000) mod 0x400].

(** A leading U+FEFF is removed ([ignoreBOM] is false by default). *)
Definition strip_bom (cps : list Z) : list Z :=
  match cps with
  | cp :: rest => if cp =? 0xFEFF then rest else cps
  | [] => []
  end.

(** [new TextDecoder('utf-8', { fatal: true }).decode(bytes)]. *)
Definition TextDecoder_decode (bytes : list Z) : option js_string :=
  (fun cps => concat (utf16_of_code_point <$> strip_bom cps))
    <$> utf8_decode_from utf8_decoder_init bytes.

(** [String.prototype.isWellFormed]: no unpaired surrogate. *)
Fixpoint isWellFormed (s : js_string) : bool :=
  match s with
  | [] => true
  | u :: rest =>
      if is_high_surrogate u then
        match rest with
        | v :: rest' => is_low_surrogate v && isWellFormed rest'
        | [] => false
        end
      else negb (is_low_surrogate u) && isWellFormed rest
  end.

End Encoding.

(** A list of integers is a JavaScript string when its elements are code
    units. *)
Definition is_code_unit (u : Z) : Prop := 0 <= u <= 0xFFFF.
Definition is_js_string (s : js_string) : Prop := Forall is_code_unit s.

(** ** The failures of the service

    One constructor for each [reject(new Error(...))] and [throw] of the
    source, named after the failure condition it reports. *)

Inductive error :=
| Overflow (num : Z) (bits : nat)
    (* numberToBinary: 'Number ... is too large to fit in ... bits.' *)
| CapacityExceeded (available required : nat)
    (* 'Text is too long to embed in this image. ...' *)
| InternalInconsistency
    (* 'Encoding error: Ran out of image data space unexpectedly. ...' *)
| BufferTooSmall
    (* 'Image is too small to contain any message ...' *)
| LengthReadOverrun
    (* 'Decoding error: Ran out of image data while reading message length. ...' *)
| InvalidLength (messageLength : Z)
    (* 'Invalid message length extracted: ...' *)
| DeclaredLengthExceedsCapacity (declared : Z) (available : nat)
    (* 'Declared message length (...) exceeds available space in image ...' *)
| MessageReadOverrun (expected : Z) (got : nat)
    (* 'Decoding error: Ran out of image data while reading message. ...' *)
| InvalidEncoding.
    (* 'Failed to decode message: Invalid UTF-8 sequence detected. ...' *)

(** How a call ends: with a value, with one of the failures above, or, for
    the model only, with a loop cut short by its fuel (shown below never to
    happen). *)
Inductive completion (A : Type) :=
| Done (a : A)
| Failed (e : error)
| Unfinished.
Arguments Done {A} a.
Arguments Failed {A} e.
Arguments Unfinished {A}.

Inductive loop_exit := LoopDone | LoopRanOut | LoopFuel.

(** What [binaryToUTF8Text] writes to the console. *)
Inductive console_entry :=
| WarnNotMultipleOf8
| WarnPartialByte (byteString : js_string)
| ErrorDecodeFailed.

(** ** The bit-payload codec *)

Definition textToUTF8Binary (text : js_string) : js_string :=
  let utf8Bytes := Encoding.TextEncoder_encode text in
  foldl (fun binaryString byte =>
           binaryString ++ JS.padStart (JS.toString2 byte) 8 chr_0)
        [] utf8Bytes.

Definition numberToBinary (num : Z) (bits : nat) : error + js_string :=
  let binary := JS.toString2 num in
  if (bits <? length binary)%nat then inl (Overflow num bits)
  else inr (JS.repeat1 chr_0 (bits - length binary) ++ binary).

(** The [for] loop of [binaryToUTF8Text]: [i] steps by 8 over the string;
    a chunk of 8 characters is parsed and pushed, a shorter one is warned
    about and dropped. *)
Fixpoint chunk_loop (fuel : nat) (binaryString : js_string) (i : nat)
    (bytes : list (option Z)) (console : list console_entry)
  : option (list (option Z) * list console_entry) :=
  match fuel with
  | O => None
  | S fuel' =>
      if (i <? length binaryString)%nat then
        let byteString :=
          JS.substring binaryString i (Nat.min (i + 8) (length binaryString)) in
        if (length byteString =? 8)%nat
        then chunk_loop fuel' binaryString (i + 8)
               (bytes ++ [JS.parseInt byteString 2]) console
        else chunk_loop fuel' binaryString (i + 8)
               bytes (console ++ [WarnPartialByte byteString])
      else Some (bytes, console)
  end.

Definition binaryToUTF8Text (binaryString : js_string)
  : list console_entry * completion js_string :=
  let console0 :=
    if negb (length binaryString mod 8 =? 0)%nat then [WarnNotMultipleOf8] else [] in
  match chunk_loop (S (length binaryString)) binaryString 0 [] console0 with
  | None => (console0, Unfinished)
  | Some (bytes, console) =>
      let uint8Array := JS.ToUint8 <$> bytes in
      match Encoding.TextDecoder_decode uint8Array with
      | Some text => (console, Done text)
      | None => (console ++ [ErrorDecodeFailed], Failed InvalidEncoding)
      end
  end.

(** ** The pixel-channel embedder *)

(** [Math.floor((data.length / 4) * 3)]: a quarter of an integer and three
    times it are exact in double precision at these sizes, so this is the
    integer part of [3 * data.length / 4]. *)
Definition maxEmbeddableBits (data : list Z) : nat := (length data * 3 / 4)%nat.

(** [s[i]] passed to [parseInt]: the one-character string, or [undefined],
    which [parseInt] reads as the string 'undefined'. *)
Definition char_at (s : js_string) (i : nat) : js_string :=
  match s !! i with
  | Some c => [c]
  | None => [117; 110; 100; 101; 102; 105; 110; 101; 100]
  end.

Definition bitToEmbed (fullBinaryPayload : js_string) (payloadIndex : nat) : Z :=
  JS.ToInt32 (JS.parseInt (char_at fullBinaryPayload payloadIndex) 10).

(** [(data[dataIndex] & 0xFE) | bitToEmbed], as stored in the clamped array. *)
Definition embed_bit (old bit : Z) : Z :=
  JS.ToUint8Clamp (Z.lor (Z.land old 0xFE) bit).

Record embed_state := {
  e_exit : loop_exit;
  e_data : list Z;
  e_dataIndex : nat;
  e_payloadIndex : nat
}.

(** The [while] loop of [encodeTextInImage]. *)
Fixpoint embed_loop (fuel : nat) (fullBinaryPayload : js_string)
    (data : list Z) (dataIndex payloadIndex : nat) : embed_state :=
  match fuel with
  | O => {| e_exit := LoopFuel; e_data := data;
            e_dataIndex := dataIndex; e_payloadIndex := payloadIndex |}
  | S fuel' =>
      if (payloadIndex <? length fullBinaryPayload)%nat then
        if (length data <=? dataIndex)%nat then
          {| e_exit := LoopRanOut; e_data := data;
             e_dataIndex := dataIndex; e_payloadIndex := payloadIndex |}
        else if negb (dataIndex mod 4 =? 3)%nat then
          let bit := bitToEmbed fullBinaryPayload payloadIndex in
          let data' :=
            <[dataIndex := embed_bit (default 0 (data !! dataIndex)) bit]> data in
          embed_loop fuel' fullBinaryPayload data' (S dataIndex) (S payloadIndex)
        else
          embed_loop fuel' fullBinaryPayload data (S dataIndex) payloadIndex
      else
        {| e_exit := LoopDone; e_data := data;
           e_dataIndex := dataIndex; e_payloadIndex := payloadIndex |}
  end.

(** [messageLengthBinary + secretMessageBinary]. *)
Definition fullBinaryPayload (text : js_string) : error + js_string :=
  let secretMessageBinary := textToUTF8Binary text in
  match numberToBinary (Z.of_nat (length secretMessageBinary)) 32 with
  | inl e => inl e
  | inr messageLengthBinary => inr (messageLengthBinary ++ secretMessageBinary)
  end.

(** [encodeTextInImage] from the pixel buffer on (lines 92-125): the buffer
    as the call leaves it, and how the call ended. *)
Definition encodeTextInImage (data : list Z) (text : js_string)
  : list Z * completion unit :=
  match fullBinaryPayload text with
  | inl e => (data, Failed e)
  | inr payload =>
      if (maxEmbeddableBits data <? length payload)%nat then
        (data, Failed (CapacityExceeded (maxEmbeddableBits data) (length payload)))
      else
        let st := embed_loop (S (length data)) payload data 0 0 in
        match e_exit st with
        | LoopDone => (e_data st, Done tt)
        | LoopRanOut => (e_data st, Failed InternalInconsistency)
        | LoopFuel => (e_data st, Unfinished)
        end
  end.

(** ** The pixel-channel extractor *)

Record read_state := {
  r_exit : loop_exit;
  r_bits : js_string;
  r_dataIndex : nat;
  r_count : nat;
  r_reads : list nat
}.

(** The two [while] loops of [decodeTextFromImage] (lines 197-207 and
    234-244) are the same loop up to the names of their counters: read the
    least-significant bit of every non-alpha byte until [target] bits are
    read.  [reads] records the indices at which [data] is read. *)
Fixpoint read_loop (fuel : nat) (data : list Z) (target : Z)
    (bits : js_string) (dataIndex bitsRead : nat) (reads : list nat) : read_state :=
  match fuel with
  | O => {| r_exit := LoopFuel; r_bits := bits; r_dataIndex := dataIndex;
            r_count := bitsRead; r_reads := reads |}
  | S fuel' =>
      if Z.of_nat bitsRead <? target then
        if (length data <=? dataIndex)%nat then
          {| r_exit := LoopRanOut; r_bits := bits; r_dataIndex := dataIndex;
             r_count := bitsRead; r_reads := reads |}
        else if negb (dataIndex mod 4 =? 3)%nat then
          read_loop fuel' data target
            (bits ++ JS.toString10 (Z.land (default 0 (data !! dataIndex)) 1))
            (S dataIndex) (S bitsRead) (reads ++ [dataIndex])
        else
          read_loop fuel' data target bits (S dataIndex) bitsRead reads
      else
        {| r_exit := LoopDone; r_bits := bits; r_dataIndex := dataIndex;
           r_count := bitsRead; r_reads := reads |}
  end.

(** [decodeTextFromImage] from the pixel buffer on (lines 185-251): the
    indices of [data] that were read, and how the call ended.  The console
    output of [binaryToUTF8Text] is not part of the result. *)
Definition decodeTextFromImage (data : list Z) : list nat * completion js_string :=
  let totalAvailableBits := maxEmbeddableBits data in
  if (totalAvailableBits <? 32)%nat then ([], Failed BufferTooSmall)
  else
    let st1 := read_loop (S (length data)) data 32 [] 0 0 [] in
    match r_exit st1 with
    | LoopFuel => (r_reads st1, Unfinished)
    | LoopRanOut => (r_reads st1, Failed LengthReadOverrun)
    | LoopDone =>
        match JS.parseInt (r_bits st1) 2 with
        | None =>
            (* NaN compares false with everything: no check fires, no bit is read *)
            (r_reads st1, snd (binaryToUTF8Text []))
        | Some messageLength =>
            if messageLength =? 0 then (r_reads st1, Done [])
            else if messageLength <? 0 then
              (r_reads st1, Failed (InvalidLength messageLength))
            else
              let remainingBitsInImage := (totalAvailableBits - 32)%nat in
              if Z.of_nat remainingBitsInImage <? messageLength then
                (r_reads st1,
                 Failed (DeclaredLengthExceedsCapacity messageLength remainingBitsInImage))
              else
                let st2 := read_loop (S (length data)) data messageLength
                             [] (r_dataIndex st1) 0 (r_reads st1) in
                match r_exit st2 with
                | LoopFuel => (r_reads st2, Unfinished)
                | LoopRanOut =>
                    (r_reads st2,
                     Failed (MessageReadOverrun messageLength (r_count st2)))
                | LoopDone => (r_reads st2, snd (binaryToUTF8Text (r_bits st2)))
                end
        end
    end.

(** ** Notions used to state the properties *)

(** The pixel buffer of an image: four bytes per pixel. *)
Definition PixelBuffer (data : list Z) : Prop := (length data mod 4 = 0)%nat.

(** The number of bits of the UTF-8 encoding of a text. *)
Definition bitlength (text : js_string) : nat :=
  (8 * length (Encoding.TextEncoder_encode text))%nat.

(** The buffer index that holds payload bit [k]. *)
Definition slot (k : nat) : nat := (4 * (k / 3) + k mod 3)%nat.

(** The number of non-alpha indices below [d]. *)
Definition eligible_below (d : nat) : nat := (3 * (d / 4) + d mod 4)%nat.

(** The least-significant bit the extractor reads at index [i]. *)
Definition lsb (data : list Z) (i : nat) : Z := Z.land (default 0 (data !! i)) 1.

(** A binary string, and the number it denotes, most significant bit first. *)
Definition is_bit_char (c : Z) : Prop := c = chr_0 \/ c = chr_1.
Definition bin_step (a c : Z) : Z := 2 * a + (c - chr_0).
Definition bin_value (s : js_string) : Z := foldl bin_step 0 s.

(** The 32-bit big-endian number held by the least-significant bits of the
    first 32 non-alpha bytes. *)
Definition length_field (data : list Z) : Z :=
  foldl (fun a k => 2 * a + lsb data (slot k)) 0 (seq 0 32).

(** ** Auxiliary notions of the proofs *)

(** A byte, and a Unicode scalar value. *)
Definition is_byte (b : Z) : Prop := 0 <= b <= 255.

Definition is_scalar_value (cp : Z) : Prop :=
  0 <= cp <= 0xD7FF \/ 0xE000 <= cp <= 0x10FFFF.

(** One byte as the encoder writes it: eight binary digits. *)
Definition byte8 (b : Z) : js_string := JS.padStart (JS.toString2 b) 8 chr_0.

(** The full 8-character chunks of a string. *)
Fixpoint chunks (n : nat) (s : js_string) : list js_string :=
  match n with
  | O => []
  | S n' => take 8 s :: chunks n' (drop 8 s)
  end.

(** The warning left by a trailing chunk of fewer than 8 characters. *)
Definition partial_warning (s : js_string) : list console_entry :=
  if (length s mod 8 =? 0)%nat then []
  else [WarnPartialByte (drop (8 * (length s / 8)) s)].

(** The character the extractor appends for payload bit [k]. *)
Definition lsb_char (data : list Z) (k : nat) : Z := chr_0 + lsb data (slot k).

(** Index [i] receives a payload bit: it is not an alpha byte and the bits
    before it do not exhaust a payload of [n] bits. *)
Definition written (n i : nat) : Prop :=
  (i mod 4 <> 3)%nat /\ (eligible_below i < n)%nat.

(** ** Example inputs *)

(** A 24-pixel buffer of white pixels: 96 bytes, 72 eligible bits. *)
Definition white_buffer : list Z := replicate 96 255.

(** The string 'hello': 40 bits, exactly what [white_buffer] can hold after
    the prefix. *)
Definition hello : js_string := [104; 101; 108; 108; 111].

(** The string 'hello!': 48 bits. *)
Definition hello_bang : js_string := [104; 101; 108; 108; 111; 33].

(** The bits of 'a' followed by one more bit. *)
Definition nine_bits : js_string := [48; 49; 49; 48; 48; 48; 48; 49; 48].

(** A 16-pixel buffer whose bytes all end in 1, in 0. *)
Definition odd_buffer : list Z := replicate 64 7.
Definition even_buffer : list Z := replicate 64 6.

(** A 2x2 image. *)
Definition tiny_buffer : list Z := replicate 16 0.

(** A string that starts with U+FEFF, and an unpaired surrogate. *)
Definition bom_text : js_string := [0xFEFF; 104; 105].
Definition lone_surrogate : js_string := [0xD83D].

(** ** The service as a whole

    What the browser hands to the service when it is asked for the pixels
    of a file: each way the [FileReader], the [Image] and the canvas can
    answer is one case. *)

Inductive canvas_pixels :=
| NoContext                      (* canvas.getContext('2d') is null *)
| GetImageDataThrows             (* ctx.getImageData throws *)
| ImageData (data : list Z).     (* imageData.data *)

Inductive image_file :=
| NoFile                         (* imageFile is null or undefined *)
| ReadError                      (* reader.onerror *)
| NoContent                      (* the result is missing or not a string *)
| LoadError                      (* img.onerror *)
| Loaded (width height : Z) (pixels : canvas_pixels).   (* img.onload *)

(** The rejections that precede the codec. *)
Inductive file_error :=
| NoImageFileProvided            (* 'No image file provided to ... service.' *)
| FileReaderFailed               (* 'FileReader failed to read the image file ...' *)
| NoFileContent                  (* 'Failed to read image file content ...' *)
| ImageLoadFailed                (* 'Failed to load image ...' *)
| ImageTooLarge (width height : Z)   (* 'Image dimensions (...) are too large ...' *)
| NoCanvasContext                (* 'Failed to get canvas context ...' *)
| ImageDataUnavailable.          (* 'Failed to get image data ...' *)

Definition MAX_CANVAS_AREA : Z := 4096 * 4096.

(** [encodeTextInImage], lines 55-149: the rejections before the pixel
    buffer is held, then the codec on the buffer. *)
Definition encodeTextInImageFile (imageFile : image_file) (text : js_string)
  : file_error + (list Z * completion unit) :=
  match imageFile with
  | NoFile => inl NoImageFileProvided
  | ReadError => inl FileReaderFailed
  | NoContent => inl NoFileContent
  | LoadError => inl ImageLoadFailed
  | Loaded width height pixels =>
      if MAX_CANVAS_AREA <? width * height then inl (ImageTooLarge width height)
      else
        match pixels with
        | NoContext => inl NoCanvasContext
        | GetImageDataThrows => inl ImageDataUnavailable
        | ImageData data => inr (encodeTextInImage data text)
        end
  end.

(** [decodeTextFromImage], lines 151-276. *)
Definition decodeTextFromImageFile (imageFile : image_file)
  : file_error + (list nat * completion js_string) :=
  match imageFile with
  | NoFile => inl NoImageFileProvided
  | ReadError => inl FileReaderFailed
  | NoContent => inl NoFileContent
  | LoadError => inl ImageLoadFailed
  | Loaded width height pixels =>
      if MAX_CANVAS_AREA <? width * height then inl (ImageTooLarge width height)
      else
        match pixels with
        | NoContext => inl NoCanvasContext
        | GetImageDataThrows => inl ImageDataUnavailable
        | ImageData data => inr (decodeTextFromImage data)
        end
  end.

(** What [getImageData(0, 0, width, height)] returns: four bytes for each
    of the [width * height] pixels. *)
Definition image_data_of (width height : Z) (data : list Z) : Prop :=
  0 <= width /\ 0 <= height /\ Z.of_nat (length data) = 4 * (width * height).

(** The UTF-8 encoding of U+FEFF, which the decoder removes from the
    front of its input. *)
Definition bom_bytes : list Z := [0xEF; 0xBB; 0xBF].

(** ** More example inputs *)

(** 'hi' and 'hey'. *)
Definition hi : js_string := [104; 105].
Definition hey : js_string := [104; 101; 121].

(** The bits of 'hi'. *)
Definition hi_bits : js_string :=
  [48; 49; 49; 48; 49; 48; 48; 48; 48; 49; 49; 48; 49; 48; 48; 49].

(** [white_buffer] with other colours and other alpha values: the same
    least-significant bits in the colour channels. *)
Definition grey_buffer : list Z := replicate 96 129.

(** * Properties *)

(** ** Binary strings *)

Section BinaryStrings.

Lemma pos_toString2_bits p : Forall is_bit_char (JS.pos_toString2 p).
Proof.
  induction p as [q IH | q IH |]; simpl.
  - apply Forall_app; split; [exact IH | repeat constructor; now right].
  - apply Forall_app; split; [exact IH | repeat constructor; now left].
  - repeat constructor; now right.
Qed.

Lemma pos_toString2_value p a :
  foldl bin_step a (JS.pos_toString2 p) = a * 2 ^ Z.of_nat (length (JS.pos_toString2 p)) + Z.pos p.
Proof.
  revert a; induction p as [q IH | q IH |]; intros a; simpl.
  - rewrite foldl_snoc, IH, length_app, Nat2Z.inj_add, Z.pow_add_r by lia.
    unfold bin_step, chr_0, chr_1; simpl (length [_]). lia.
  - rewrite foldl_snoc, IH, length_app, Nat2Z.inj_add, Z.pow_add_r by lia.
    unfold bin_step, chr_0; simpl (length [_]). lia.
  - unfold bin_step, chr_0, chr_1. lia.
Qed.

Lemma pos_toString2_length p (n : nat) :
  (length (JS.pos_toString2 p) <= n)%nat <-> Z.pos p < 2 ^ Z.of_nat n.
Proof.
  revert n; induction p as [q IH | q IH |]; intros n; simpl.
  - rewrite length_app; simpl. destruct n as [| n].
    + simpl. lia.
    + specialize (IH n). rewrite Nat2Z.inj_succ, Z.pow_succ_r by lia. lia.
  - rewrite length_app; simpl. destruct n as [| n].
    + simpl. lia.
    + specialize (IH n). rewrite Nat2Z.inj_succ, Z.pow_succ_r by lia. lia.
  - destruct n as [| n]; [simpl; lia |].
    rewrite Nat2Z.inj_succ, Z.pow_succ_r by lia.
    assert (0 < 2 ^ Z.of_nat n) by (apply Z.pow_pos_nonneg; lia). lia.
Qed.

Lemma toString2_bits n : 0 <= n -> Forall is_bit_char (JS.toString2 n).
Proof.
  destruct n as [| p | p]; intros Hn; simpl.
  - repeat constructor; now left.
  - apply pos_toString2_bits.
  - lia.
Qed.

Lemma toString2_value n : 0 <= n -> bin_value (JS.toString2 n) = n.
Proof.
  destruct n as [| p | p]; intros Hn; simpl; [reflexivity | | lia].
  unfold bin_value. rewrite pos_toString2_value. lia.
Qed.

Lemma toString2_length n (w : nat) :
  0 <= n -> (0 < w)%nat ->
  (length (JS.toString2 n) <= w)%nat <-> n < 2 ^ Z.of_nat w.
Proof.
  destruct n as [| p | p]; intros Hn Hw; simpl; [| apply pos_toString2_length | lia].
  assert (0 < 2 ^ Z.of_nat w) by (apply Z.pow_pos_nonneg; lia). lia.
Qed.

Lemma bin_value_zeros (k : nat) s :
  bin_value (replicate k chr_0 ++ s) = bin_value s.
Proof.
  unfold bin_value. rewrite foldl_app. f_equal.
  induction k as [| k IH]; simpl; [reflexivity | exact IH].
Qed.

Lemma replicate_bits (k : nat) : Forall is_bit_char (replicate k chr_0).
Proof. apply Forall_replicate. now left. Qed.

Lemma parse_digits_bits s a :
  Forall is_bit_char s ->
  JS.parse_digits 2 s (Some a) = Some (foldl bin_step a s).
Proof.
  intros Hs; revert a; induction Hs as [| c r [-> | ->] _ IH]; intros a;
    simpl; [reflexivity | |]; rewrite IH; reflexivity.
Qed.

Lemma parseInt_bits s :
  Forall is_bit_char s -> s <> [] -> JS.parseInt s 2 = Some (bin_value s).
Proof.
  intros Hs Hne. destruct Hs as [| c r Hc Hr]; [congruence |].
  unfold bin_value.
  destruct Hc as [-> | ->]; unfold JS.parseInt; simpl;
    rewrite parse_digits_bits by assumption; simpl;
    rewrite Z.mul_1_l; reflexivity.
Qed.

(** A number below [2^w] written on [w] binary digits. *)
Lemma padded_binary n (w : nat) :
  0 <= n < 2 ^ Z.of_nat w -> (0 < w)%nat ->
  let s := replicate (w - length (JS.toString2 n))%nat chr_0 ++ JS.toString2 n in
  length s = w /\ Forall is_bit_char s /\ bin_value s = n.
Proof.
  intros [Hn Hlt] Hw s. subst s.
  pose proof (proj2 (toString2_length n w Hn Hw) Hlt) as Hlen.
  split; [| split].
  - rewrite length_app, length_replicate. lia.
  - apply Forall_app; split; [apply replicate_bits | now apply toString2_bits].
  - rewrite bin_value_zeros. now apply toString2_value.
Qed.

End BinaryStrings.

(** ** The encoding platform *)

Section EncodingFacts.

Import Encoding.

Lemma list_pair_ind {A} (P : list A -> Prop) :
  P [] -> (forall x, P [x]) ->
  (forall x y l, P l -> P (y :: l) -> P (x :: y :: l)) ->
  forall l, P l.
Proof.
  intros H0 H1 H2 l.
  enough (P l /\ forall x, P (x :: l)) by tauto.
  induction l as [| y l [IH1 IH2]]; split; auto.
Qed.

Ltac surrogate_cases :=
  unfold is_high_surrogate, is_low_surrogate in *;
  repeat match goal with
    | H : is_code_unit _ |- _ => unfold is_code_unit in H
    | H : context [Z.leb ?a ?b] |- _ => destruct (Z.leb_spec a b); simpl in H
    | |- context [Z.leb ?a ?b] => destruct (Z.leb_spec a b); simpl
    end.

Lemma to_scalar_values_scalar s :
  is_js_string s -> Forall is_scalar_value (to_scalar_values s).
Proof.
  unfold is_js_string.
  induction s as [| x | x y l IHl IHyl] using list_pair_ind; intros Hs.
  - constructor.
  - apply Forall_cons_1 in Hs as [Hx _]. simpl.
    surrogate_cases; repeat constructor; unfold is_scalar_value; lia.
  - apply Forall_cons_1 in Hs as [Hx Hyl].
    pose proof Hyl as Hyl'. apply Forall_cons_1 in Hyl' as [Hy Hl].
    specialize (IHl Hl). specialize (IHyl Hyl).
    change (to_scalar_values (x :: y :: l)) with
      (if is_high_surrogate x then
         if is_low_surrogate y
         then (0x10000 + (x - 0xD800) * 0x400 + (y - 0xDC00)) :: to_scalar_values l
         else 0xFFFD :: to_scalar_values (y :: l)
       else if is_low_surrogate x then 0xFFFD :: to_scalar_values (y :: l)
       else x :: to_scalar_values (y :: l)).
    surrogate_cases; constructor; try assumption; unfold is_scalar_value; lia.
Qed.

Lemma utf8_encode_code_point_bytes cp :
  is_scalar_value cp -> Forall is_byte (utf8_encode_code_point cp).
Proof.
  unfold is_scalar_value, utf8_encode_code_point. intros Hcp.
  repeat match goal with
    | |- context [Z.leb ?a ?b] => destruct (Z.leb_spec a b)
    end; repeat constructor; unfold is_byte; lia.
Qed.

Lemma TextEncoder_encode_bytes text :
  is_js_string text -> Forall is_byte (TextEncoder_encode text).
Proof.
  intros Hs. unfold TextEncoder_encode.
  rewrite Forall_concat. rewrite Forall_fmap.
  eapply List.Forall_impl; [| apply to_scalar_values_scalar, Hs].
  intros cp Hcp. apply utf8_encode_code_point_bytes, Hcp.
Qed.

Ltac head_if :=
  match goal with
  | |- (if ?c then _ else _) = _ =>
      let E := fresh "E" in
      destruct c eqn:E;
      rewrite ?negb_true_iff, ?negb_false_iff, ?andb_true_iff, ?andb_false_iff,
        ?Z.leb_le, ?Z.leb_gt, ?Z.eqb_eq, ?Z.eqb_neq in E;
      try (exfalso; lia)
  end.

Lemma utf8_handler_ascii b :
  0 <= b <= 0x7F -> utf8_handler utf8_decoder_init b = Emit b utf8_decoder_init.
Proof. intros Hb. unfold utf8_handler; cbn [bytes_needed utf8_decoder_init]. now repeat head_if. Qed.

Lemma utf8_handler_lead2 b :
  0xC2 <= b <= 0xDF ->
  utf8_handler utf8_decoder_init b =
  Continue {| code_point := b mod 32; bytes_seen := 0; bytes_needed := 1;
              lower_boundary := 0x80; upper_boundary := 0xBF |}.
Proof. intros Hb. unfold utf8_handler; cbn [bytes_needed utf8_decoder_init]. now repeat head_if. Qed.

Lemma utf8_handler_lead3 b :
  0xE0 <= b <= 0xEF ->
  utf8_handler utf8_decoder_init b =
  Continue {| code_point := b mod 16; bytes_seen := 0; bytes_needed := 2;
              lower_boundary := if b =? 0xE0 then 0xA0 else 0x80;
              upper_boundary := if b =? 0xED then 0x9F else 0xBF |}.
Proof. intros Hb. unfold utf8_handler; cbn [bytes_needed utf8_decoder_init]. now repeat head_if. Qed.

Lemma utf8_handler_lead4 b :
  0xF0 <= b <= 0xF4 ->
  utf8_handler utf8_decoder_init b =
  Continue {| code_point := b mod 8; bytes_seen := 0; bytes_needed := 3;
              lower_boundary := if b =? 0xF0 then 0x90 else 0x80;
              upper_boundary := if b =? 0xF4 then 0x8F else 0xBF |}.
Proof. intros Hb. unfold utf8_handler; cbn [bytes_needed utf8_decoder_init]. now repeat head_if. Qed.

Lemma utf8_handler_continuation cp seen needed lo hi b :
  needed <> 0 -> lo <= b <= hi ->
  utf8_handler {| code_point := cp; bytes_seen := seen; bytes_needed := needed;
                  lower_boundary := lo; upper_boundary := hi |} b =
  if seen + 1 =? needed then Emit (cp * 64 + b mod 64) utf8_decoder_init
  else Continue {| code_point := cp * 64 + b mod 64; bytes_seen := seen + 1;
                   bytes_needed := needed;
                   lower_boundary := 0x80; upper_boundary := 0xBF |}.
Proof.
  intros Hn Hb. unfold utf8_handler;
    cbn [bytes_needed bytes_seen code_point lower_boundary upper_boundary].
  now repeat head_if.
Qed.

Ltac boundary_cases :=
  repeat match goal with
    | |- context [Z.eqb ?a ?b] => destruct (Z.eqb_spec a b)
    end.

Lemma utf8_decode_encode_code_point cp rest :
  is_scalar_value cp ->
  utf8_decode_from utf8_decoder_init (utf8_encode_code_point cp ++ rest) =
  cons cp <$> utf8_decode_from utf8_decoder_init rest.
Proof.
  unfold is_scalar_value, utf8_encode_code_point. intros Hcp.
  destruct (Z.leb_spec cp 0x7F); [| destruct (Z.leb_spec cp 0x7FF);
    [| destruct (Z.leb_spec cp 0xFFFF)]];
  cbn [app utf8_decode_from].
  - rewrite utf8_handler_ascii by lia. reflexivity.
  - rewrite utf8_handler_lead2 by lia.
    rewrite utf8_handler_continuation by lia.
    change (0 + 1 =? 1) with true. cbv iota.
    f_equal. f_equal. lia.
  - rewrite utf8_handler_lead3 by lia.
    rewrite utf8_handler_continuation by (boundary_cases; lia).
    change (0 + 1 =? 2) with false. cbv iota.
    rewrite utf8_handler_continuation by lia.
    change (0 + 1 + 1 =? 2) with true. cbv iota.
    f_equal. f_equal. lia.
  - rewrite utf8_handler_lead4 by lia.
    rewrite utf8_handler_continuation by (boundary_cases; lia).
    change (0 + 1 =? 3) with false. cbv iota.
    rewrite utf8_handler_continuation by lia.
    change (0 + 1 + 1 =? 3) with false. cbv iota.
    rewrite utf8_handler_continuation by lia.
    change (0 + 1 + 1 + 1 =? 3) with true. cbv iota.
    f_equal. f_equal. lia.
Qed.

Lemma utf8_decode_encode cps :
  Forall is_scalar_value cps ->
  utf8_decode_from utf8_decoder_init (concat (utf8_encode_code_point <$> cps)) = Some cps.
Proof.
  induction 1 as [| cp cps Hcp _ IH]; [reflexivity |].
  rewrite fmap_cons. cbn [concat].
  rewrite utf8_decode_encode_code_point, IH by assumption. reflexivity.
Qed.

Lemma utf16_of_to_scalar_values s :
  is_js_string s -> isWellFormed s = true ->
  concat (utf16_of_code_point <$> to_scalar_values s) = s.
Proof.
  unfold is_js_string.
  induction s as [| x | x y l IHl IHyl] using list_pair_ind; intros Hs Hwf.
  - reflexivity.
  - apply Forall_cons_1 in Hs as [Hx _]. cbn [isWellFormed to_scalar_values] in *.
    destruct (is_high_surrogate x); [discriminate |].
    destruct (is_low_surrogate x); [discriminate |].
    cbn [fmap list_fmap concat app]. unfold utf16_of_code_point.
    unfold is_code_unit in Hx.
    destruct (Z.leb_spec x 0xFFFF); [reflexivity | lia].
  - apply Forall_cons_1 in Hs as [Hx Hyl].
    pose proof Hyl as Hyl'. apply Forall_cons_1 in Hyl' as [Hy Hl].
    change (isWellFormed (x :: y :: l)) with
      (if is_high_surrogate x then is_low_surrogate y && isWellFormed l
       else negb (is_low_surrogate x) && isWellFormed (y :: l)) in Hwf.
    change (to_scalar_values (x :: y :: l)) with
      (if is_high_surrogate x then
         if is_low_surrogate y
         then (0x10000 + (x - 0xD800) * 0x400 + (y - 0xDC00)) :: to_scalar_values l
         else 0xFFFD :: to_scalar_values (y :: l)
       else if is_low_surrogate x then 0xFFFD :: to_scalar_values (y :: l)
       else x :: to_scalar_values (y :: l)).
    destruct (is_high_surrogate x) eqn:Ehx.
    + apply andb_true_iff in Hwf as [Ely Hwf]. rewrite Ely.
      rewrite fmap_cons. cbn [concat]. rewrite (IHl Hl Hwf).
      unfold utf16_of_code_point.
      unfold is_high_surrogate, is_low_surrogate in Ehx, Ely.
      destruct (Z.leb_spec (0x10000 + (x - 0xD800) * 0x400 + (y - 0xDC00)) 0xFFFF); [lia |].
      cbn [app]. f_equal; [lia | f_equal; lia].
    + apply andb_true_iff in Hwf as [Elx Hwf].
      apply negb_true_iff in Elx. rewrite Elx.
      rewrite fmap_cons. cbn [concat]. rewrite (IHyl Hyl Hwf).
      unfold utf16_of_code_point. unfold is_code_unit in Hx.
      destruct (Z.leb_spec x 0xFFFF); [reflexivity | lia].
Qed.

Lemma strip_bom_to_scalar_values s :
  head s <> Some 0xFEFF -> strip_bom (to_scalar_values s) = to_scalar_values s.
Proof.
  destruct s as [| x l]; [reflexivity |]. cbn [head]. intros Hx.
  assert (Hne : x <> 0xFEFF) by congruence.
  cbn [to_scalar_values].
  destruct (is_high_surrogate x) eqn:Ehx.
  - unfold is_high_surrogate in Ehx. destruct l as [| y l]; [reflexivity |].
    destruct (is_low_surrogate y) eqn:Ely; [| reflexivity].
    unfold is_low_surrogate in Ely. unfold strip_bom.
    destruct (Z.eqb_spec (0x10000 + (x - 0xD800) * 0x400 + (y - 0xDC00)) 0xFEFF); [lia | reflexivity].
  - destruct (is_low_surrogate x); [reflexivity |].
    unfold strip_bom. destruct (Z.eqb_spec x 0xFEFF); [contradiction | reflexivity].
Qed.

(** Decoding the encoding of a well-formed string that does not start
    with U+FEFF gives the string back. *)
Lemma TextDecoder_decode_encode text :
  is_js_string text -> isWellFormed text = true -> head text <> Some 0xFEFF ->
  TextDecoder_decode (TextEncoder_encode text) = Some text.
Proof.
  intros Hs Hwf Hbom. unfold TextDecoder_decode, TextEncoder_encode.
  rewrite utf8_decode_encode by (apply to_scalar_values_scalar, Hs).
  cbn [fmap option_fmap option_map].
  rewrite strip_bom_to_scalar_values by assumption.
  rewrite utf16_of_to_scalar_values by assumption. reflexivity.
Qed.

End EncodingFacts.

(** ** The bit-payload codec *)

Section Codec.

Lemma byte8_spec b :
  is_byte b -> length (byte8 b) = 8%nat /\ Forall is_bit_char (byte8 b) /\ bin_value (byte8 b) = b.
Proof.
  unfold is_byte. intros Hb. unfold byte8, JS.padStart.
  apply (padded_binary b 8); [change (2 ^ Z.of_nat 8) with 256; lia | lia].
Qed.

Lemma foldl_append {A B} (g : B -> list A) (l : list B) (a : list A) :
  foldl (fun acc b => acc ++ g b) a l = a ++ concat (g <$> l).
Proof.
  revert a; induction l as [| b l IH]; intros a; simpl.
  - now rewrite app_nil_r.
  - rewrite IH. now rewrite <- app_assoc.
Qed.

Lemma textToUTF8Binary_concat text :
  textToUTF8Binary text = concat (byte8 <$> Encoding.TextEncoder_encode text).
Proof. unfold textToUTF8Binary. now rewrite foldl_append. Qed.

Lemma concat_byte8_length bytes :
  Forall is_byte bytes -> length (concat (byte8 <$> bytes)) = (8 * length bytes)%nat.
Proof.
  induction 1 as [| b bytes Hb _ IH]; [reflexivity |].
  rewrite fmap_cons. cbn [concat length]. rewrite length_app, IH.
  destruct (byte8_spec b Hb) as [-> _]. lia.
Qed.

Lemma concat_byte8_bits bytes :
  Forall is_byte bytes -> Forall is_bit_char (concat (byte8 <$> bytes)).
Proof.
  induction 1 as [| b bytes Hb _ IH]; [constructor |].
  rewrite fmap_cons. cbn [concat]. apply Forall_app; split; [| exact IH].
  apply (byte8_spec b Hb).
Qed.

Lemma textToUTF8Binary_length text :
  is_js_string text -> length (textToUTF8Binary text) = bitlength text.
Proof.
  intros Hs. rewrite textToUTF8Binary_concat. unfold bitlength.
  apply concat_byte8_length, TextEncoder_encode_bytes, Hs.
Qed.

Lemma textToUTF8Binary_bits text :
  is_js_string text -> Forall is_bit_char (textToUTF8Binary text).
Proof.
  intros Hs. rewrite textToUTF8Binary_concat.
  apply concat_byte8_bits, TextEncoder_encode_bytes, Hs.
Qed.

Lemma numberToBinary_fits n :
  0 <= n < 2 ^ 32 ->
  exists s, numberToBinary n 32 = inr s /\
            length s = 32%nat /\ Forall is_bit_char s /\ bin_value s = n.
Proof.
  intros Hn. unfold numberToBinary, JS.repeat1.
  assert (Hlen : (length (JS.toString2 n) <= 32)%nat)
    by (apply toString2_length; [lia | lia | exact (proj2 Hn)]).
  destruct (Nat.ltb_spec 32 (length (JS.toString2 n))) as [Hgt | _]; [lia |].
  eexists; split; [reflexivity |].
  apply (padded_binary n 32); [exact Hn | lia].
Qed.

Lemma numberToBinary_overflow n :
  2 ^ 32 <= n -> numberToBinary n 32 = inl (Overflow n 32).
Proof.
  intros Hn. unfold numberToBinary.
  destruct (Nat.ltb_spec 32 (length (JS.toString2 n))) as [_ | Hle]; [reflexivity |].
  apply toString2_length in Hle; [| lia | lia].
  change (2 ^ Z.of_nat 32) with (2 ^ 32) in Hle. lia.
Qed.

(** The payload of a text whose bit length fits the length field. *)
Lemma fullBinaryPayload_fits text :
  is_js_string text -> Z.of_nat (bitlength text) < 2 ^ 32 ->
  exists lengthBits,
    fullBinaryPayload text = inr (lengthBits ++ textToUTF8Binary text) /\
    length lengthBits = 32%nat /\ Forall is_bit_char lengthBits /\
    bin_value lengthBits = Z.of_nat (bitlength text).
Proof.
  intros Hs Hlt. unfold fullBinaryPayload.
  rewrite textToUTF8Binary_length by assumption.
  destruct (numberToBinary_fits (Z.of_nat (bitlength text))) as (s & -> & Hlen & Hbits & Hval);
    [lia |].
  exists s. auto.
Qed.

Lemma fullBinaryPayload_overflow text :
  is_js_string text -> 2 ^ 32 <= Z.of_nat (bitlength text) ->
  fullBinaryPayload text = inl (Overflow (Z.of_nat (bitlength text)) 32).
Proof.
  intros Hs Hge. unfold fullBinaryPayload.
  rewrite textToUTF8Binary_length by assumption.
  now rewrite numberToBinary_overflow.
Qed.

Lemma fullBinaryPayload_spec text payload :
  is_js_string text -> fullBinaryPayload text = inr payload ->
  length payload = (32 + bitlength text)%nat /\ Forall is_bit_char payload /\
  Z.of_nat (bitlength text) < 2 ^ 32.
Proof.
  intros Hs Hp.
  destruct (Z.lt_ge_cases (Z.of_nat (bitlength text)) (2 ^ 32)) as [Hlt | Hge].
  - destruct (fullBinaryPayload_fits text Hs Hlt) as (s & E & Hlen & Hbits & _).
    rewrite E in Hp. injection Hp as <-.
    rewrite length_app, Hlen, textToUTF8Binary_length by assumption.
    repeat split; [| exact Hlt].
    apply Forall_app; split; [exact Hbits | now apply textToUTF8Binary_bits].
  - rewrite fullBinaryPayload_overflow in Hp by assumption. discriminate.
Qed.

Lemma chunk_loop_spec fuel s :
  forall i bytes console,
    (length s - i < fuel)%nat ->
    chunk_loop fuel s i bytes console =
    Some (bytes ++ ((fun c => JS.parseInt c 2) <$> chunks ((length s - i) / 8) (drop i s)),
          console ++ partial_warning (drop i s)).
Proof.
  induction fuel as [| fuel IH]; intros i bytes console Hfuel; [lia |].
  cbn [chunk_loop].
  destruct (Nat.ltb_spec i (length s)) as [Hi | Hi].
  - unfold JS.substring. rewrite length_take, length_drop.
    match goal with
    | |- context [Nat.eqb ?a 8] => destruct (Nat.eqb_spec a 8) as [E | E]
    end.
    + rewrite IH by lia. unfold partial_warning. rewrite !length_drop.
      replace ((length s - i) / 8)%nat with (S ((length s - (i + 8)) / 8)) by lia.
      cbn [chunks]. rewrite fmap_cons, <- app_assoc. cbn [app].
      rewrite !drop_drop.
      replace ((i + 8) `min` length s - i)%nat with 8%nat by lia.
      replace ((length s - (i + 8)) mod 8)%nat with ((length s - i) mod 8)%nat by lia.
      destruct (Nat.eqb_spec ((length s - i) mod 8) 0); [reflexivity |].
      replace (i + 8 * S ((length s - (i + 8)) / 8))%nat
        with (i + 8 + 8 * ((length s - (i + 8)) / 8))%nat by lia.
      reflexivity.
    + rewrite IH by lia. unfold partial_warning. rewrite !length_drop.
      replace ((length s - (i + 8)) / 8)%nat with 0%nat by lia.
      replace ((length s - i) / 8)%nat with 0%nat by lia.
      replace ((length s - (i + 8)) mod 8)%nat with 0%nat by lia.
      destruct (Nat.eqb_spec ((length s - i) mod 8) 0) as [E' | _]; [lia |].
      cbn [chunks fmap list_fmap Nat.eqb]. rewrite !app_nil_r.
      f_equal. f_equal. f_equal. f_equal.
      rewrite take_ge by (rewrite length_drop; lia).
      now rewrite Nat.mul_0_r, drop_0.
  - unfold partial_warning. rewrite !length_drop.
    replace (length s - i)%nat with 0%nat by lia.
    cbn. now rewrite !app_nil_r.
Qed.

(** [binaryToUTF8Text] in closed form: the full chunks are parsed, stored
    as bytes and decoded; a trailing partial chunk only leaves warnings. *)
Lemma binaryToUTF8Text_spec s :
  binaryToUTF8Text s =
    let console :=
      (if negb (length s mod 8 =? 0)%nat then [WarnNotMultipleOf8] else [])
        ++ partial_warning s in
    match Encoding.TextDecoder_decode
            (JS.ToUint8 <$> ((fun c => JS.parseInt c 2) <$> chunks (length s / 8) s)) with
    | Some text => (console, Done text)
    | None => (console ++ [ErrorDecodeFailed], Failed InvalidEncoding)
    end.
Proof.
  unfold binaryToUTF8Text.
  rewrite chunk_loop_spec by lia.
  rewrite drop_0, Nat.sub_0_r. reflexivity.
Qed.

Lemma chunks_concat_byte8 bytes rest :
  Forall is_byte bytes ->
  chunks (length bytes) (concat (byte8 <$> bytes) ++ rest) = byte8 <$> bytes.
Proof.
  induction 1 as [| b bytes Hb _ IH]; [reflexivity |].
  rewrite fmap_cons. cbn [concat length chunks].
  destruct (byte8_spec b Hb) as (Hlen & _ & _).
  rewrite <- app_assoc.
  rewrite take_app_length' by (symmetry; exact Hlen).
  rewrite drop_app_length' by (symmetry; exact Hlen).
  now rewrite IH.
Qed.

Lemma parse_byte8 bytes :
  Forall is_byte bytes ->
  JS.ToUint8 <$> ((fun c => JS.parseInt c 2) <$> (byte8 <$> bytes)) = bytes.
Proof.
  induction 1 as [| b bytes Hb _ IH]; [reflexivity |].
  rewrite !fmap_cons, IH. f_equal.
  destruct (byte8_spec b Hb) as (Hlen & Hbits & Hval).
  rewrite parseInt_bits; [| exact Hbits | intros E; rewrite E in Hlen; discriminate].
  rewrite Hval. unfold JS.ToUint8. unfold is_byte in Hb. lia.
Qed.

(** The bits of a text decode back to the UTF-8 decoding of its bytes,
    with nothing written to the console. *)
Lemma binaryToUTF8Text_textToUTF8Binary text :
  is_js_string text ->
  binaryToUTF8Text (textToUTF8Binary text) =
    match Encoding.TextDecoder_decode (Encoding.TextEncoder_encode text) with
    | Some t => ([], Done t)
    | None => ([ErrorDecodeFailed], Failed InvalidEncoding)
    end.
Proof.
  intros Hs. pose proof (TextEncoder_encode_bytes text Hs) as Hbytes.
  rewrite binaryToUTF8Text_spec. cbv zeta.
  rewrite textToUTF8Binary_concat. unfold partial_warning.
  rewrite concat_byte8_length by assumption.
  replace ((8 * length (Encoding.TextEncoder_encode text)) mod 8)%nat with 0%nat by lia.
  replace ((8 * length (Encoding.TextEncoder_encode text)) / 8)%nat
    with (length (Encoding.TextEncoder_encode text)) by lia.
  pose proof (chunks_concat_byte8 (Encoding.TextEncoder_encode text) [] Hbytes) as Hc.
  rewrite app_nil_r in Hc. rewrite Hc, parse_byte8 by assumption.
  reflexivity.
Qed.

End Codec.

(** ** Bit operations on a byte *)

Section Bits.

Lemma land_1 x : Z.land x 1 = x mod 2.
Proof. exact (Z.land_ones x 1 ltac:(lia)). Qed.

Lemma land_254 x : Z.land x 254 = 2 * ((x / 2) mod 128).
Proof.
  change 254 with (Z.shiftl (Z.ones 7) 1).
  apply Z.bits_inj'. intros n Hn.
  rewrite Z.land_spec.
  destruct (Z.eq_dec n 0) as [-> | Hn0].
  - rewrite Z.shiftl_spec_low by lia. rewrite Z.testbit_even_0. apply andb_false_r.
  - replace n with (Z.succ (n - 1)) by lia.
    rewrite Z.testbit_even_succ by lia.
    rewrite Z.shiftl_spec by lia.
    replace (Z.succ (n - 1) - 1) with (n - 1) by lia.
    change 128 with (2 ^ 7). rewrite <- Z.land_ones by lia.
    rewrite Z.land_spec. f_equal.
    change 2 with (2 ^ 1). rewrite <- Z.shiftr_div_pow2 by lia.
    rewrite Z.shiftr_spec by lia. f_equal; lia.
Qed.

Lemma lor_bit y b : b = 0 \/ b = 1 -> Z.lor (2 * y) b = 2 * y + b.
Proof.
  intros [-> | ->]; [rewrite Z.lor_0_r; lia |].
  apply Z.bits_inj'. intros n Hn. rewrite Z.lor_spec.
  destruct (Z.eq_dec n 0) as [-> | Hn0].
  - rewrite Z.testbit_odd_0. apply orb_true_r.
  - replace n with (Z.succ (n - 1)) by lia.
    rewrite Z.testbit_odd_succ, Z.testbit_even_succ by lia.
    replace (Z.testbit 1 (Z.succ (n - 1))) with false
      by (symmetry; apply (Z.ones_spec_high 1); lia).
    apply orb_false_r.
Qed.

(** Writing a bit keeps bits 1 to 7, sets bit 0, and stays a byte. *)
Lemma embed_bit_spec old b :
  b = 0 \/ b = 1 ->
  embed_bit old b = Z.lor (Z.land old 0xFE) b /\
  0 <= embed_bit old b <= 255 /\
  Z.land (embed_bit old b) 1 = b /\
  Z.land (embed_bit old b) 0xFE = Z.land old 0xFE.
Proof.
  intros Hb. unfold embed_bit, JS.ToUint8Clamp.
  rewrite (land_254 old), lor_bit by exact Hb.
  rewrite land_1, land_254. lia.
Qed.

Lemma toString10_lsb x : JS.toString10 (Z.land x 1) = [chr_0 + Z.land x 1].
Proof.
  rewrite land_1.
  assert (H : x mod 2 = 0 \/ x mod 2 = 1) by lia.
  destruct H as [-> | ->]; reflexivity.
Qed.

Lemma lsb_bit data i : lsb data i = 0 \/ lsb data i = 1.
Proof. unfold lsb. rewrite land_1. lia. Qed.

End Bits.

(** ** Index arithmetic of the walk *)

Section Slots.

Lemma eligible_below_slot k : eligible_below (slot k) = k.
Proof. unfold eligible_below, slot. lia. Qed.

Lemma slot_not_alpha k : (slot k mod 4 <> 3)%nat.
Proof. unfold slot. lia. Qed.

Lemma slot_eligible_below d : (d mod 4 <> 3)%nat -> slot (eligible_below d) = d.
Proof. unfold eligible_below, slot. lia. Qed.

Lemma eligible_below_S d :
  eligible_below (S d) = if (d mod 4 =? 3)%nat then eligible_below d else S (eligible_below d).
Proof. unfold eligible_below. destruct (Nat.eqb_spec (d mod 4) 3); lia. Qed.

Lemma eligible_below_mono d d' : (d <= d')%nat -> (eligible_below d <= eligible_below d')%nat.
Proof. unfold eligible_below. lia. Qed.

Lemma slot_mono k k' : (k < k')%nat -> (slot k < slot k')%nat.
Proof. unfold slot. lia. Qed.

Lemma eligible_below_length data :
  (maxEmbeddableBits data <= eligible_below (length data))%nat.
Proof. unfold maxEmbeddableBits, eligible_below. lia. Qed.

Lemma maxEmbeddableBits_PixelBuffer data :
  PixelBuffer data -> maxEmbeddableBits data = (length data / 4 * 3)%nat.
Proof. unfold PixelBuffer, maxEmbeddableBits. lia. Qed.

End Slots.

(** ** The embed walk *)

Section Embedder.

Lemma bitToEmbed_bit payload k c :
  payload !! k = Some c -> is_bit_char c -> bitToEmbed payload k = c - chr_0.
Proof.
  intros Hk Hc. unfold bitToEmbed, char_at. rewrite Hk.
  destruct Hc as [-> | ->]; reflexivity.
Qed.

Lemma embed_loop_state fuel payload :
  forall data d p, p = eligible_below d ->
    let st := embed_loop fuel payload data d p in
    length (e_data st) = length data /\
    (d <= e_dataIndex st)%nat /\
    (e_dataIndex st <= d `max` length data)%nat /\
    e_payloadIndex st = eligible_below (e_dataIndex st) /\
    match e_exit st with
    | LoopDone =>
        (length payload <= e_payloadIndex st)%nat /\
        (e_payloadIndex st <= p `max` length payload)%nat /\
        (e_dataIndex st = d \/
         exists j, e_dataIndex st = S j /\ (j mod 4 <> 3)%nat /\ (j < length data)%nat)
    | LoopRanOut =>
        (e_payloadIndex st < length payload)%nat /\ (length data <= e_dataIndex st)%nat
    | LoopFuel =>
        e_dataIndex st = (d + fuel)%nat /\ (0 < fuel -> d + fuel <= length data)%nat
    end.
Proof.
  induction fuel as [| fuel IH]; intros data d p Hp; cbn [embed_loop].
  - cbn [e_data e_dataIndex e_payloadIndex e_exit]. repeat split; try lia.
  - destruct (Nat.ltb_spec p (length payload)) as [Hlt | Hge].
    + destruct (Nat.leb_spec (length data) d) as [Hout | Hin].
      * cbn [e_data e_dataIndex e_payloadIndex e_exit]. repeat split; try lia.
      * destruct (Nat.eqb_spec (d mod 4) 3) as [Ha | Ha]; cbn [negb].
        -- specialize (IH data (S d) p).
           destruct IH as (Hl & Hd & Hd' & Hpi & Hex).
           { rewrite eligible_below_S. destruct (Nat.eqb_spec (d mod 4) 3); [exact Hp | lia]. }
           repeat split; try lia.
           destruct (e_exit (embed_loop fuel payload data (S d) p)).
           ++ destruct Hex as (H1 & H2 & [H3 | (j & H3 & H4 & H5)]).
              ** exfalso. rewrite H3, eligible_below_S in Hpi.
                 destruct (Nat.eqb_spec (d mod 4) 3); lia.
              ** repeat split; try lia. right. exists j. auto.
           ++ lia.
           ++ lia.
        -- match goal with |- context [embed_loop fuel payload ?data' _ _] =>
             specialize (IH data' (S d) (S p)) end.
           rewrite length_insert in IH.
           destruct IH as (Hl & Hd & Hd' & Hpi & Hex).
           { rewrite eligible_below_S. destruct (Nat.eqb_spec (d mod 4) 3); lia. }
           repeat split; try lia.
           match goal with |- match e_exit ?s with _ => _ end => destruct (e_exit s) end.
           ++ destruct Hex as (H1 & H2 & [H3 | (j & H3 & H4 & H5)]).
              ** repeat split; try lia. right. exists d. auto.
              ** repeat split; try lia. right. exists j. auto.
           ++ lia.
           ++ lia.
    + cbn [e_data e_dataIndex e_payloadIndex e_exit]. repeat split; lia.
Qed.

Lemma embed_loop_lookup fuel payload :
  forall data d p i, p = eligible_below d ->
    let st := embed_loop fuel payload data d p in
    e_data st !! i =
      if decide ((d <= i < e_dataIndex st)%nat /\ (i mod 4 <> 3)%nat)
      then Some (embed_bit (default 0 (data !! i))
                   (bitToEmbed payload (eligible_below i)))
      else data !! i.
Proof.
  induction fuel as [| fuel IH]; intros data d p i Hp; cbn [embed_loop].
  - cbn [e_data e_dataIndex e_payloadIndex e_exit]. case_decide; [lia | reflexivity].
  - destruct (Nat.ltb_spec p (length payload)) as [Hlt | Hge].
    + destruct (Nat.leb_spec (length data) d) as [Hout | Hin].
      * cbn [e_data e_dataIndex e_payloadIndex e_exit]. case_decide; [lia | reflexivity].
      * destruct (Nat.eqb_spec (d mod 4) 3) as [Ha | Ha]; cbn [negb].
        -- assert (Hp' : p = eligible_below (S d)).
           { rewrite eligible_below_S. destruct (Nat.eqb_spec (d mod 4) 3); [exact Hp | lia]. }
           rewrite (IH data (S d) p i Hp').
           pose proof (embed_loop_state fuel payload data (S d) p Hp') as (_ & Hd & _).
           repeat case_decide; try reflexivity; exfalso.
           ++ assert (i = d) by lia. subst i. tauto.
           ++ lia.
        -- assert (Hp' : S p = eligible_below (S d)).
           { rewrite eligible_below_S. destruct (Nat.eqb_spec (d mod 4) 3); lia. }
           match goal with |- context [embed_loop fuel payload ?data' _ _] =>
             rewrite (IH data' (S d) (S p) i Hp');
             pose proof (embed_loop_state fuel payload data' (S d) (S p) Hp') as (_ & Hd & _)
           end.
           destruct (Nat.eq_dec i d) as [-> | Hne].
           ++ rewrite list_lookup_insert_eq by lia.
              repeat case_decide; try lia; try tauto.
              subst p. reflexivity.
           ++ rewrite list_lookup_insert_ne by congruence.
              repeat case_decide; try reflexivity; exfalso; lia.
    + cbn [e_data e_dataIndex e_payloadIndex e_exit]. case_decide; [lia | reflexivity].
Qed.

End Embedder.

(** ** The read walk *)

Section Extractor.

Lemma read_loop_spec fuel data target :
  forall bits d c reads,
    let st := read_loop fuel data target bits d c reads in
    let e := eligible_below d in
    exists m : nat,
      r_count st = (c + m)%nat /\
      r_bits st = bits ++ (lsb_char data <$> seq e m) /\
      r_reads st = reads ++ (slot <$> seq e m) /\
      (forall k, (e <= k < e + m)%nat -> (slot k < length data)%nat) /\
      match r_exit st with
      | LoopDone =>
          target <= Z.of_nat (c + m) /\
          ((m = 0%nat /\ r_dataIndex st = d) \/
           ((0 < m)%nat /\ Z.of_nat (c + m) = target /\
            r_dataIndex st = S (slot (e + m - 1))))
      | LoopRanOut =>
          Z.of_nat (c + m) < target /\ eligible_below (r_dataIndex st) = (e + m)%nat /\
          (length data <= r_dataIndex st <= d `max` length data)%nat
      | LoopFuel =>
          r_dataIndex st = (d + fuel)%nat /\ (0 < fuel -> d + fuel <= length data)%nat
      end.
Proof.
  induction fuel as [| fuel IH]; intros bits d c reads; cbn [read_loop]; cbv zeta.
  - exists 0%nat. cbn [r_count r_bits r_reads r_exit r_dataIndex seq fmap list_fmap].
    rewrite !app_nil_r. repeat split; lia.
  - destruct (Z.ltb_spec (Z.of_nat c) target) as [Hlt | Hge].
    + destruct (Nat.leb_spec (length data) d) as [Hout | Hin].
      * exists 0%nat. cbn [r_count r_bits r_reads r_exit r_dataIndex seq fmap list_fmap].
        rewrite !app_nil_r. repeat split; lia.
      * destruct (Nat.eqb_spec (d mod 4) 3) as [Ha | Ha]; cbn [negb].
        -- specialize (IH bits (S d) c reads). cbv zeta in IH.
           replace (eligible_below (S d)) with (eligible_below d) in IH
             by (rewrite eligible_below_S; destruct (Nat.eqb_spec (d mod 4) 3); [reflexivity | lia]).
           destruct IH as (m & Hc & Hb & Hr & Hin' & Hex).
           exists m. repeat split; try assumption.
           destruct (r_exit (read_loop fuel data target bits (S d) c reads)).
           ++ destruct Hex as (H1 & [(H2 & H3) | (H2 & H3 & H4)]); [lia |].
              split; [exact H1 |]. right. auto.
           ++ destruct Hex as (H1 & H2 & H3). repeat split; lia.
           ++ lia.
        -- rewrite toString10_lsb.
           match goal with |- context [read_loop fuel data target ?bits' _ _ ?reads'] =>
             specialize (IH bits' (S d) (S c) reads');
             set (st' := read_loop fuel data target bits' (S d) (S c) reads') in *
           end.
           cbv zeta in IH.
           replace (eligible_below (S d)) with (S (eligible_below d)) in IH
             by (rewrite eligible_below_S; destruct (Nat.eqb_spec (d mod 4) 3); [lia | reflexivity]).
           destruct IH as (m & Hc & Hb & Hr & Hin' & Hex).
           exists (S m). cbn [seq]. rewrite !fmap_cons.
           rewrite Hc, Hb, Hr, <- !app_assoc. cbn [app].
           unfold lsb_char at 2. rewrite slot_eligible_below by exact Ha.
           fold (lsb data d).
           repeat split; try lia.
           { intros k Hk. destruct (Nat.eq_dec k (eligible_below d)) as [-> | Hne].
             - rewrite slot_eligible_below by exact Ha. lia.
             - apply Hin'. lia. }
           destruct (r_exit st').
           ++ destruct Hex as (H1 & [(H2 & H3) | (H2 & H3 & H4)]).
              ** split; [lia |]. right. subst m. repeat split; try lia.
                 rewrite H3. f_equal.
                 replace (eligible_below d + 1 - 1)%nat with (eligible_below d) by lia.
                 symmetry. apply slot_eligible_below, Ha.
              ** split; [lia |]. right. repeat split; try lia.
                 rewrite H4. do 2 f_equal. lia.
           ++ destruct Hex as (H1 & H2 & H3). repeat split; lia.
           ++ lia.
    + exists 0%nat. cbn [r_count r_bits r_reads r_exit r_dataIndex seq fmap list_fmap].
      rewrite !app_nil_r. repeat split; lia.
Qed.

Lemma bin_value_lsb_chars data l a :
  foldl bin_step a (lsb_char data <$> l) =
  foldl (fun a k => 2 * a + lsb data (slot k)) a l.
Proof.
  revert a; induction l as [| k l IH]; intros a; [reflexivity |].
  rewrite fmap_cons. cbn [foldl]. rewrite IH. f_equal.
  unfold bin_step, lsb_char. lia.
Qed.

Lemma lsb_chars_bits data l : Forall is_bit_char (lsb_char data <$> l).
Proof.
  rewrite Forall_fmap. apply Forall_forall. intros k _.
  unfold compose, lsb_char, is_bit_char, chr_0, chr_1.
  destruct (lsb_bit data (slot k)) as [-> | ->]; lia.
Qed.

Lemma length_field_nonneg data : 0 <= length_field data.
Proof.
  unfold length_field.
  enough (H : forall l a, 0 <= a -> 0 <= foldl (fun a k => 2 * a + lsb data (slot k)) a l)
    by (apply H; lia).
  induction l as [| k l IH]; intros a Ha; [exact Ha |].
  cbn [foldl]. apply IH. destruct (lsb_bit data (slot k)); lia.
Qed.

Lemma prefix_value data :
  bin_value (lsb_char data <$> seq 0 32) = length_field data.
Proof. unfold bin_value, length_field. apply bin_value_lsb_chars. Qed.

(** The reading of the 32-bit length prefix. *)
Lemma read_prefix data :
  (32 <= maxEmbeddableBits data)%nat ->
  let st := read_loop (S (length data)) data 32 [] 0 0 [] in
  r_exit st = LoopDone /\
  r_bits st = lsb_char data <$> seq 0 32 /\
  r_reads st = slot <$> seq 0 32 /\
  r_dataIndex st = 42%nat.
Proof.
  intros Hcap st.
  pose proof (eligible_below_length data) as Hel.
  destruct (read_loop_spec (S (length data)) data 32 [] 0 0 []) as (m & Hc & Hb & Hr & Hin & Hex).
  fold st in Hc, Hb, Hr, Hex. change (eligible_below 0) with 0%nat in *.
  destruct (r_exit st).
  - destruct Hex as (H1 & [(H2 & H3) | (H2 & H3 & H4)]); [lia |].
    assert (m = 32%nat) by lia. subst m.
    rewrite Hb, Hr, H4. repeat split; reflexivity.
  - exfalso. destruct Hex as (H1 & H2 & H3).
    replace (r_dataIndex st) with (length data) in H2 by lia. lia.
  - exfalso. lia.
Qed.

(** The reading of [n] message bits after the prefix. *)
Lemma read_message data (n : Z) reads :
  0 < n <= Z.of_nat (maxEmbeddableBits data - 32) ->
  let st := read_loop (S (length data)) data n [] 42 0 reads in
  r_exit st = LoopDone /\
  r_bits st = lsb_char data <$> seq 32 (Z.to_nat n) /\
  r_reads st = reads ++ (slot <$> seq 32 (Z.to_nat n)).
Proof.
  intros Hn st.
  pose proof (eligible_below_length data) as Hel.
  destruct (read_loop_spec (S (length data)) data n [] 42 0 reads) as (m & Hc & Hb & Hr & Hin & Hex).
  fold st in Hc, Hb, Hr, Hex. change (eligible_below 42) with 32%nat in *.
  assert (Hlen : (42 <= length data)%nat) by (unfold maxEmbeddableBits in Hn; lia).
  destruct (r_exit st).
  - destruct Hex as (H1 & [(H2 & H3) | (H2 & H3 & H4)]); [lia |].
    assert (m = Z.to_nat n) by lia. subst m.
    rewrite Hb, Hr. repeat split; reflexivity.
  - exfalso. destruct Hex as (H1 & H2 & H3).
    replace (r_dataIndex st) with (length data) in H2 by lia. lia.
  - exfalso. lia.
Qed.

(** [decodeTextFromImage] in closed form. *)
Lemma decodeTextFromImage_spec data :
  decodeTextFromImage data =
    if (maxEmbeddableBits data <? 32)%nat then ([], Failed BufferTooSmall)
    else
      let messageLength := length_field data in
      let available := (maxEmbeddableBits data - 32)%nat in
      if messageLength =? 0 then (slot <$> seq 0 32, Done [])
      else if Z.of_nat available <? messageLength then
        (slot <$> seq 0 32,
         Failed (DeclaredLengthExceedsCapacity messageLength available))
      else
        (slot <$> seq 0 (32 + Z.to_nat messageLength),
         snd (binaryToUTF8Text (lsb_char data <$> seq 32 (Z.to_nat messageLength)))).
Proof.
  unfold decodeTextFromImage.
  destruct (Nat.ltb_spec (maxEmbeddableBits data) 32) as [Hsmall | Hcap]; [reflexivity |].
  destruct (read_prefix data Hcap) as (Hex & Hb & Hr & Hd).
  cbv zeta. rewrite Hex, Hb, Hr, Hd.
  rewrite parseInt_bits by (apply lsb_chars_bits || discriminate).
  rewrite prefix_value.
  pose proof (length_field_nonneg data) as Hnn.
  destruct (Z.eqb_spec (length_field data) 0) as [E0 | Hne]; [reflexivity |].
  destruct (Z.ltb_spec (length_field data) 0) as [Hneg | _]; [lia |].
  destruct (Z.ltb_spec (Z.of_nat (maxEmbeddableBits data - 32)) (length_field data))
    as [Hbig | Hfit]; [reflexivity |].
  destruct (read_message data (length_field data) (slot <$> seq 0 32)) as (Hex2 & Hb2 & Hr2);
    [lia |].
  rewrite Hex2, Hb2, Hr2.
  rewrite seq_app, fmap_app. reflexivity.
Qed.

End Extractor.

(** ** [encodeTextInImage] and [decodeTextFromImage] as a whole *)

Section Service.

(* Projections are rewritten, not computed: the components are large terms. *)
Lemma fst_pair {A B} (a : A) (b : B) : fst (a, b) = a.
Proof. reflexivity. Qed.

Lemma snd_pair {A B} (a : A) (b : B) : snd (a, b) = b.
Proof. reflexivity. Qed.

Lemma eligible_below_lt i d :
  (i mod 4 <> 3)%nat -> (i < d)%nat <-> (eligible_below i < eligible_below d)%nat.
Proof. unfold eligible_below. lia. Qed.

(** A payload within the capacity is embedded completely and in bounds. *)
Lemma embed_walk_done data payload :
  (length payload <= maxEmbeddableBits data)%nat ->
  let st := embed_loop (S (length data)) payload data 0 0 in
  e_exit st = LoopDone /\
  e_payloadIndex st = length payload /\
  (e_dataIndex st <= length data)%nat /\
  length (e_data st) = length data /\
  forall i,
    e_data st !! i =
      if decide (written (length payload) i)
      then Some (embed_bit (default 0 (data !! i)) (bitToEmbed payload (eligible_below i)))
      else data !! i.
Proof.
  intros Hcap st.
  pose proof (eligible_below_length data) as Hel.
  assert (H0 : 0%nat = eligible_below 0) by reflexivity.
  pose proof (embed_loop_state (S (length data)) payload data 0 0 H0) as (Hl & _ & Hd & Hp & Hex).
  pose proof (embed_loop_lookup (S (length data)) payload data 0 0) as Hlook.
  fold st in Hl, Hd, Hp, Hex, Hlook. cbv zeta in Hlook.
  assert (Hdone : e_exit st = LoopDone /\ e_payloadIndex st = length payload).
  { destruct (e_exit st).
    - split; [reflexivity | lia].
    - exfalso. destruct Hex as (H1 & H2).
      replace (e_dataIndex st) with (length data) in Hp by lia. lia.
    - exfalso. lia. }
  destruct Hdone as (Hdone & Hpay).
  repeat split; try assumption; try lia.
  intros i. rewrite (Hlook i H0). unfold written.
  rewrite <- Hpay, Hp.
  repeat case_decide; try reflexivity; exfalso.
  - match goal with
    | H : _ /\ _, N : ¬ _ |- _ => destruct H as [[_ Hi] Ha]; apply N
    end.
    split; [exact Ha |]. exact (proj1 (eligible_below_lt i _ Ha) Hi).
  - match goal with
    | H : _ /\ _, N : ¬ _ |- _ => destruct H as [Ha Hi]; apply N
    end.
    split; [| exact Ha]. split; [lia |]. exact (proj2 (eligible_below_lt i _ Ha) Hi).
Qed.

(** An index that receives a payload bit lies in the buffer. *)
Lemma written_in_bounds data n i :
  (n <= maxEmbeddableBits data)%nat -> written n i -> (i < length data)%nat.
Proof. unfold written, maxEmbeddableBits, eligible_below. lia. Qed.

Lemma written_slot n k : written n (slot k) <-> (k < n)%nat.
Proof.
  unfold written. rewrite eligible_below_slot.
  pose proof (slot_not_alpha k). tauto.
Qed.

Lemma encodeTextInImage_overflow data text :
  is_js_string text -> 2 ^ 32 <= Z.of_nat (bitlength text) ->
  encodeTextInImage data text = (data, Failed (Overflow (Z.of_nat (bitlength text)) 32)).
Proof.
  intros Hs Hge. unfold encodeTextInImage.
  now rewrite fullBinaryPayload_overflow.
Qed.

Lemma encodeTextInImage_capacity data text :
  is_js_string text -> Z.of_nat (bitlength text) < 2 ^ 32 ->
  (maxEmbeddableBits data < 32 + bitlength text)%nat ->
  encodeTextInImage data text =
    (data, Failed (CapacityExceeded (maxEmbeddableBits data) (32 + bitlength text))).
Proof.
  intros Hs Hlt Hcap. unfold encodeTextInImage.
  destruct (fullBinaryPayload_fits text Hs Hlt) as (s & E & Hlen & _).
  rewrite E. rewrite length_app, Hlen, textToUTF8Binary_length by assumption.
  destruct (Nat.ltb_spec (maxEmbeddableBits data) (32 + bitlength text)); [reflexivity | lia].
Qed.

Lemma encodeTextInImage_done data text payload :
  fullBinaryPayload text = inr payload ->
  (length payload <= maxEmbeddableBits data)%nat ->
  encodeTextInImage data text =
    (e_data (embed_loop (S (length data)) payload data 0 0), Done tt).
Proof.
  intros E Hcap. unfold encodeTextInImage. rewrite E.
  destruct (Nat.ltb_spec (maxEmbeddableBits data) (length payload)); [lia |].
  destruct (embed_walk_done data payload Hcap) as (-> & _). reflexivity.
Qed.

(** What a successful embed did. *)
Lemma encodeTextInImage_done_inv data text data' :
  encodeTextInImage data text = (data', Done tt) ->
  exists payload,
    fullBinaryPayload text = inr payload /\
    (length payload <= maxEmbeddableBits data)%nat /\
    length data' = length data /\
    forall i,
      data' !! i =
        if decide (written (length payload) i)
        then Some (embed_bit (default 0 (data !! i)) (bitToEmbed payload (eligible_below i)))
        else data !! i.
Proof.
  unfold encodeTextInImage.
  destruct (fullBinaryPayload text) as [e | payload] eqn:E; [discriminate |].
  destruct (Nat.ltb_spec (maxEmbeddableBits data) (length payload)) as [| Hcap]; [discriminate |].
  destruct (embed_walk_done data payload Hcap) as (Hex & _ & _ & Hl & Hlook).
  rewrite Hex. intros H. injection H as <-.
  exists payload. auto.
Qed.

(** The embed never runs out of fuel. *)
Lemma encodeTextInImage_finishes data text :
  snd (encodeTextInImage data text) <> Unfinished.
Proof.
  unfold encodeTextInImage.
  destruct (fullBinaryPayload text) as [e | payload]; [discriminate |].
  destruct (Nat.ltb_spec (maxEmbeddableBits data) (length payload)) as [| Hcap]; [discriminate |].
  destruct (embed_walk_done data payload Hcap) as (-> & _). discriminate.
Qed.

Lemma binaryToUTF8Text_finishes s : snd (binaryToUTF8Text s) <> Unfinished.
Proof.
  rewrite binaryToUTF8Text_spec. cbv zeta.
  destruct (Encoding.TextDecoder_decode _); discriminate.
Qed.

(** The extraction never runs out of fuel. *)
Lemma decodeTextFromImage_finishes data :
  snd (decodeTextFromImage data) <> Unfinished.
Proof.
  rewrite decodeTextFromImage_spec.
  destruct (maxEmbeddableBits data <? 32)%nat; [discriminate |].
  cbv zeta.
  destruct (length_field data =? 0); [discriminate |].
  destruct (Z.of_nat (maxEmbeddableBits data - 32) <? length_field data); [discriminate |].
  rewrite snd_pair. apply binaryToUTF8Text_finishes.
Qed.

(** The written bit as the written byte shows it. *)
Lemma embedded_bit (data : list Z) payload k c :
  payload !! k = Some c -> is_bit_char c ->
  let new := embed_bit (default 0 (data !! slot k)) (bitToEmbed payload k) in
  new = Z.lor (Z.land (default 0 (data !! slot k)) 0xFE) (c - chr_0) /\
  chr_0 + Z.land new 1 = c /\
  Z.land new 0xFE = Z.land (default 0 (data !! slot k)) 0xFE.
Proof.
  intros Hk Hc new. subst new.
  rewrite (bitToEmbed_bit payload k c Hk Hc).
  assert (Hb : c - chr_0 = 0 \/ c - chr_0 = 1)
    by (unfold is_bit_char, chr_0, chr_1 in *; lia).
  destruct (embed_bit_spec (default 0 (data !! slot k)) (c - chr_0) Hb) as (H1 & _ & H3 & H4).
  repeat split; [exact H1 | rewrite H3; lia | exact H4].
Qed.

End Service.

(** * The claims of the specification *)

Section Claims.

Lemma capacity_PixelBuffer data :
  PixelBuffer data -> (length data / 4 * 3)%nat = maxEmbeddableBits data.
Proof. intros H. symmetry. now apply maxEmbeddableBits_PixelBuffer. Qed.

Lemma reads_not_alpha data i :
  i ∈ fst (decodeTextFromImage data) -> (i mod 4 <> 3)%nat.
Proof.
  rewrite decodeTextFromImage_spec.
  destruct (maxEmbeddableBits data <? 32)%nat.
  { rewrite fst_pair. intros H. inversion H. }
  cbv zeta.
  destruct (length_field data =? 0);
    [| destruct (Z.of_nat (maxEmbeddableBits data - 32) <? length_field data)];
    rewrite fst_pair; intros H;
    apply list_elem_of_fmap in H as (k & -> & _); apply slot_not_alpha.
Qed.

(** C8: a buffer with fewer than 32 eligible bits (capacity
    floor(length/4)*3 below 32) makes the extraction fail with
    BufferTooSmall before any byte is read (the list of read indices is
    empty); a 2x2 RGBA buffer of 16 bytes is such a buffer. *)
Theorem extract_buffer_too_small data :
  PixelBuffer data ->
  ((length data / 4 * 3 < 32)%nat ->
   decodeTextFromImage data = ([], Failed BufferTooSmall)) /\
  (length data = 16%nat ->
   decodeTextFromImage data = ([], Failed BufferTooSmall)).
Proof.
  intros Hbuf. rewrite (capacity_PixelBuffer data Hbuf).
  assert (H : (maxEmbeddableBits data < 32)%nat ->
              decodeTextFromImage data = ([], Failed BufferTooSmall)).
  { intros Hcap. rewrite decodeTextFromImage_spec.
    destruct (Nat.ltb_spec (maxEmbeddableBits data) 32); [reflexivity | lia]. }
  split; [exact H |].
  intros H16. apply H. unfold maxEmbeddableBits. rewrite H16. cbv. lia.
Qed.

Lemma extract_buffer_too_small_witness :
  PixelBuffer tiny_buffer /\ (length tiny_buffer / 4 * 3 < 32)%nat /\
  length tiny_buffer = 16%nat /\
  decodeTextFromImage tiny_buffer = ([], Failed BufferTooSmall).
Proof.
  assert (Hbuf : PixelBuffer tiny_buffer) by reflexivity.
  assert (Hcap : (length tiny_buffer / 4 * 3 < 32)%nat) by (cbv; lia).
  refine (conj Hbuf (conj Hcap (conj eq_refl _))).
  exact (proj1 (extract_buffer_too_small tiny_buffer Hbuf) Hcap).
Defined.

(** C7: on a buffer of capacity at least 32 whose first 32 eligible
    least-significant bits hold a nonzero big-endian number greater than
    capacity - 32, the extraction fails with DeclaredLengthExceedsCapacity;
    the only bytes read are the 32 of the prefix, all below index 42, where
    the message bits would start. *)
Theorem extract_declared_length_exceeds_capacity data :
  PixelBuffer data ->
  let capacity := (length data / 4 * 3)%nat in
  (32 <= capacity)%nat ->
  length_field data <> 0 ->
  Z.of_nat (capacity - 32) < length_field data ->
  decodeTextFromImage data =
    (slot <$> seq 0 32,
     Failed (DeclaredLengthExceedsCapacity (length_field data) (capacity - 32))) /\
  Forall (fun i => (i < 42)%nat) (fst (decodeTextFromImage data)).
Proof.
  intros Hbuf capacity. subst capacity. rewrite (capacity_PixelBuffer data Hbuf).
  intros Hcap Hne Hbig.
  assert (E : decodeTextFromImage data =
    (slot <$> seq 0 32,
     Failed (DeclaredLengthExceedsCapacity (length_field data) (maxEmbeddableBits data - 32)))).
  { rewrite decodeTextFromImage_spec.
    destruct (Nat.ltb_spec (maxEmbeddableBits data) 32); [lia |]. cbv zeta.
    destruct (Z.eqb_spec (length_field data) 0); [contradiction |].
    destruct (Z.ltb_spec (Z.of_nat (maxEmbeddableBits data - 32)) (length_field data));
      [reflexivity | lia]. }
  split; [exact E |].
  rewrite E, fst_pair. apply Forall_forall. intros i Hi.
  apply list_elem_of_In, list_elem_of_fmap in Hi as (k & -> & Hk).
  apply elem_of_seq in Hk. unfold slot. lia.
Qed.

Lemma extract_declared_length_exceeds_capacity_witness :
  PixelBuffer odd_buffer /\ (32 <= length odd_buffer / 4 * 3)%nat /\
  length_field odd_buffer = 4294967295 /\
  decodeTextFromImage odd_buffer =
    (slot <$> seq 0 32, Failed (DeclaredLengthExceedsCapacity 4294967295 16)).
Proof.
  assert (Hbuf : PixelBuffer odd_buffer) by reflexivity.
  assert (Hcap : (32 <= length odd_buffer / 4 * 3)%nat) by (cbv; lia).
  assert (Hlen : length_field odd_buffer = 4294967295) by (vm_compute; reflexivity).
  refine (conj Hbuf (conj Hcap (conj Hlen _))).
  refine (eq_trans (proj1 (extract_declared_length_exceeds_capacity odd_buffer Hbuf Hcap _ _)) _).
  - rewrite Hlen. lia.
  - rewrite Hlen. vm_compute. reflexivity.
  - vm_compute. reflexivity.
Defined.

Lemma length_field_zero data :
  (forall k, (k < 32)%nat -> lsb data (slot k) = 0) -> length_field data = 0.
Proof.
  intros H. unfold length_field.
  assert (Hseq : Forall (fun k => (k < 32)%nat) (seq 0 32))
    by (apply Forall_forall; intros k Hk; apply list_elem_of_In, elem_of_seq in Hk; lia).
  induction Hseq as [| k l Hk _ IH]; [reflexivity |].
  cbn [foldl]. rewrite (H k Hk). exact IH.
Qed.

(** C6: when the first 32 eligible bytes of a buffer all have
    least-significant bit 0, the extraction succeeds with the empty
    string, which no failure equals; in particular extracting from a
    buffer in which the empty string was embedded returns the empty
    string. *)
Theorem extract_empty_message (data : list Z) :
  PixelBuffer data ->
  ((forall k, (k < 32)%nat ->
      exists byte, data !! slot k = Some byte /\ Z.land byte 1 = 0) ->
   snd (decodeTextFromImage data) = Done [] /\
   forall e, snd (decodeTextFromImage data) <> Failed e) /\
  ((32 <= length data / 4 * 3)%nat ->
   exists data', encodeTextInImage data [] = (data', Done tt) /\
                 snd (decodeTextFromImage data') = Done []).
Proof.
  intros Hbuf.
  assert (Hzero : forall d : list Z,
    PixelBuffer d ->
    (forall k, (k < 32)%nat -> exists byte, d !! slot k = Some byte /\ Z.land byte 1 = 0) ->
    snd (decodeTextFromImage d) = Done []).
  { intros d Hd Hlsb.
    assert (Hcap : (32 <= maxEmbeddableBits d)%nat).
    { destruct (Hlsb 31%nat ltac:(lia)) as (byte & Hb & _).
      apply lookup_lt_Some in Hb. change (slot 31) with 41%nat in Hb.
      unfold PixelBuffer in Hd. unfold maxEmbeddableBits. lia. }
    rewrite decodeTextFromImage_spec.
    destruct (Nat.ltb_spec (maxEmbeddableBits d) 32); [lia |]. cbv zeta.
    rewrite length_field_zero; [reflexivity |].
    intros k Hk. destruct (Hlsb k Hk) as (byte & Hb & Hz).
    unfold lsb. rewrite Hb. exact Hz. }
  split.
  - intros Hlsb. rewrite (Hzero data Hbuf Hlsb). split; [reflexivity | discriminate].
  - rewrite (capacity_PixelBuffer data Hbuf). intros Hcap.
    assert (E : fullBinaryPayload [] = inr (replicate 32 chr_0)) by reflexivity.
    assert (Hfit : (length (replicate 32 chr_0) <= maxEmbeddableBits data)%nat)
      by (rewrite length_replicate; exact Hcap).
    pose proof (encodeTextInImage_done data [] _ E Hfit) as Henc.
    destruct (embed_walk_done data _ Hfit) as (_ & _ & _ & Hl & Hlook).
    eexists; split; [exact Henc |].
    apply Hzero; [unfold PixelBuffer in *; rewrite Hl; exact Hbuf |].
    intros k Hk. rewrite Hlook.
    destruct (decide (written (length (replicate 32 chr_0)) (slot k))) as [_ | Hn].
    + eexists; split; [reflexivity |]. rewrite eligible_below_slot.
      assert (Hc : replicate 32 chr_0 !! k = Some chr_0)
        by (apply lookup_replicate; split; [reflexivity | exact Hk]).
      rewrite (bitToEmbed_bit _ k chr_0 Hc (or_introl eq_refl)).
      apply (embed_bit_spec _ (chr_0 - chr_0)). left. reflexivity.
    + exfalso. apply Hn. apply written_slot. rewrite length_replicate. exact Hk.
Qed.

Lemma extract_empty_message_witness :
  PixelBuffer even_buffer /\ (32 <= length even_buffer / 4 * 3)%nat /\
  snd (decodeTextFromImage even_buffer) = Done [] /\
  exists data', encodeTextInImage even_buffer [] = (data', Done tt) /\
                snd (decodeTextFromImage data') = Done [].
Proof.
  assert (Hbuf : PixelBuffer even_buffer) by reflexivity.
  assert (Hcap : (32 <= length even_buffer / 4 * 3)%nat) by (cbv; lia).
  refine (conj Hbuf (conj Hcap (conj _ _))).
  - apply (proj1 (extract_empty_message even_buffer Hbuf)).
    intros k Hk. exists 6. split; [| reflexivity].
    apply lookup_replicate. split; [reflexivity |]. unfold slot. lia.
  - exact (proj2 (extract_empty_message even_buffer Hbuf) Hcap).
Defined.

(** C4: a successful embed leaves every byte at an index i with
    i mod 4 = 3 (the alpha channel) as it was, and the extraction reads no
    such byte. *)
Theorem alpha_channel_untouched (data : list Z) text data' :
  encodeTextInImage data text = (data', Done tt) ->
  (forall i, (i mod 4 = 3)%nat -> data' !! i = data !! i) /\
  (forall buffer i, i ∈ fst (decodeTextFromImage buffer) -> (i mod 4 <> 3)%nat).
Proof.
  intros Henc. split; [| apply reads_not_alpha].
  destruct (encodeTextInImage_done_inv data text data' Henc) as (payload & _ & _ & _ & Hlook).
  intros i Hi. rewrite Hlook.
  destruct (decide (written (length payload) i)) as [[Hw _] | _]; [contradiction | reflexivity].
Qed.

Lemma alpha_channel_untouched_witness :
  exists data',
    encodeTextInImage white_buffer hello = (data', Done tt) /\
    data' !! 3%nat = white_buffer !! 3%nat /\
    Forall (fun i => (i mod 4 <> 3)%nat) (fst (decodeTextFromImage data')).
Proof.
  exists (fst (encodeTextInImage white_buffer hello)).
  assert (Henc : encodeTextInImage white_buffer hello = (fst (encodeTextInImage white_buffer hello), Done tt))
    by (vm_compute; reflexivity).
  pose proof (alpha_channel_untouched white_buffer hello _ Henc) as [Halpha Hreads].
  refine (conj Henc (conj (Halpha 3%nat eq_refl) _)).
  apply Forall_forall. intros i Hi.
  apply (Hreads (fst (encodeTextInImage white_buffer hello)) i), list_elem_of_In, Hi.
Defined.

Lemma land_254_testbit x y j :
  Z.land x 0xFE = Z.land y 0xFE -> 1 <= j < 8 -> Z.testbit x j = Z.testbit y j.
Proof.
  intros H Hj.
  assert (Hb : Z.testbit (Z.land x 0xFE) j = Z.testbit (Z.land y 0xFE) j) by (rewrite H; reflexivity).
  rewrite !Z.land_spec in Hb.
  assert (Hc : j = 1 \/ j = 2 \/ j = 3 \/ j = 4 \/ j = 5 \/ j = 6 \/ j = 7) by lia.
  assert (Ht : Z.testbit 0xFE j = true)
    by (destruct Hc as [-> | [-> | [-> | [-> | [-> | [-> | ->]]]]]]; reflexivity).
  rewrite Ht, !andb_true_r in Hb. exact Hb.
Qed.

Lemma written_slot_of n i : written n i -> slot (eligible_below i) = i /\ (eligible_below i < n)%nat.
Proof. intros [Ha Hn]. split; [apply slot_eligible_below, Ha | exact Hn]. Qed.

Lemma not_written_after n i : (0 < n)%nat -> (slot (n - 1) < i)%nat -> ~ written n i.
Proof. unfold written, slot, eligible_below. lia. Qed.

(** What a successful embed of a string did, bit by bit. *)
Lemma embed_result (data : list Z) text data' :
  is_js_string text ->
  encodeTextInImage data text = (data', Done tt) ->
  exists payload,
    fullBinaryPayload text = inr payload /\
    length payload = (32 + bitlength text)%nat /\
    Forall is_bit_char payload /\
    (length payload <= maxEmbeddableBits data)%nat /\
    length data' = length data /\
    (forall k, (k < length payload)%nat ->
       exists c old,
         payload !! k = Some c /\ is_bit_char c /\ data !! slot k = Some old /\
         data' !! slot k = Some (Z.lor (Z.land old 0xFE) (c - chr_0)) /\
         lsb_char data' k = c) /\
    (forall i, ~ written (length payload) i -> data' !! i = data !! i).
Proof.
  intros Hs Henc.
  destruct (encodeTextInImage_done_inv data text data' Henc) as (payload & E & Hcap & Hl & Hlook).
  destruct (fullBinaryPayload_spec text payload Hs E) as (Hlen & Hbits & _).
  exists payload. repeat split; try assumption.
  - intros k Hk.
    destruct (lookup_lt_is_Some_2 payload k Hk) as [c Hc].
    assert (Hbit : is_bit_char c) by (eapply Forall_lookup_1; eassumption).
    assert (Hw : written (length payload) (slot k)) by (apply written_slot, Hk).
    pose proof (written_in_bounds data _ _ Hcap Hw) as Hin.
    destruct (lookup_lt_is_Some_2 data (slot k) Hin) as [old Hold].
    pose proof (embedded_bit data payload k c Hc Hbit) as Hemb. cbv zeta in Hemb.
    rewrite Hold in Hemb. cbn [default from_option id] in Hemb.
    destruct Hemb as (H1 & H2 & _).
    assert (Hnew : data' !! slot k = Some (Z.lor (Z.land old 0xFE) (c - chr_0))).
    { rewrite Hlook. destruct (decide (written (length payload) (slot k))); [| contradiction].
      rewrite eligible_below_slot, Hold. cbn [default from_option id]. now rewrite H1. }
    exists c, old. repeat split; try assumption.
    unfold lsb_char, lsb. rewrite Hnew. cbn [default from_option id]. rewrite <- H1. exact H2.
  - intros i Hn. rewrite Hlook.
    destruct (decide (written (length payload) i)); [contradiction | reflexivity].
Qed.

(** C5: a successful embed changes at most the least-significant bit of
    a byte: a byte that receives payload bit b becomes
    (original & 0xFE) | b, every other byte is unchanged, and so bits 1 to 7
    of every byte of the buffer are as before. *)
Theorem embed_edits_only_lsb (data : list Z) text data' :
  is_js_string text ->
  encodeTextInImage data text = (data', Done tt) ->
  exists payload,
    fullBinaryPayload text = inr payload /\
    forall i old, data !! i = Some old ->
      exists new,
        data' !! i = Some new /\
        Z.land new 0xFE = Z.land old 0xFE /\
        (forall j, 1 <= j < 8 -> Z.testbit new j = Z.testbit old j) /\
        (written (length payload) i ->
           exists c, payload !! eligible_below i = Some c /\ is_bit_char c /\
                     new = Z.lor (Z.land old 0xFE) (c - chr_0)) /\
        (~ written (length payload) i -> new = old).
Proof.
  intros Hs Henc.
  destruct (embed_result data text data' Hs Henc)
    as (payload & E & _ & _ & _ & _ & Hbits & Hother).
  exists payload. split; [exact E |].
  intros i old Hold.
  destruct (decide (written (length payload) i)) as [Hw | Hn].
  - destruct (written_slot_of _ _ Hw) as [Hslot Hk].
    destruct (Hbits _ Hk) as (c & old' & Hc & Hbit & Hold' & Hnew & _).
    rewrite Hslot in Hold', Hnew.
    assert (old' = old) by congruence. subst old'.
    assert (Hb : c - chr_0 = 0 \/ c - chr_0 = 1)
      by (unfold is_bit_char, chr_0, chr_1 in *; lia).
    destruct (embed_bit_spec old (c - chr_0) Hb) as (H1 & _ & _ & H4).
    rewrite H1 in H4.
    exists (Z.lor (Z.land old 0xFE) (c - chr_0)).
    split; [exact Hnew |]. split; [exact H4 |].
    split; [intros j Hj; apply land_254_testbit; assumption |].
    split; [| contradiction].
    intros _. exists c. auto.
  - exists old. rewrite (Hother i Hn).
    split; [exact Hold |]. split; [reflexivity |].
    split; [reflexivity |]. split; [contradiction | reflexivity].
Qed.

Lemma embed_edits_only_lsb_witness :
  is_js_string hello /\
  exists data',
    encodeTextInImage white_buffer hello = (data', Done tt) /\
    exists payload,
      fullBinaryPayload hello = inr payload /\
      forall i old, white_buffer !! i = Some old ->
        exists new,
          data' !! i = Some new /\
          Z.land new 0xFE = Z.land old 0xFE /\
          (forall j, 1 <= j < 8 -> Z.testbit new j = Z.testbit old j) /\
          (written (length payload) i ->
             exists c, payload !! eligible_below i = Some c /\ is_bit_char c /\
                       new = Z.lor (Z.land old 0xFE) (c - chr_0)) /\
          (~ written (length payload) i -> new = old).
Proof.
  assert (Hs : is_js_string hello)
    by (repeat constructor; unfold is_code_unit; lia).
  assert (Henc : encodeTextInImage white_buffer hello = (fst (encodeTextInImage white_buffer hello), Done tt))
    by (vm_compute; reflexivity).
  refine (conj Hs (ex_intro _ _ (conj Henc _))).
  exact (embed_edits_only_lsb white_buffer hello _ Hs Henc).
Defined.

(** C9: when the buffer has four bytes per pixel and the payload of
    32 + bitlength(utf8(text)) bits passes the capacity check, the walk
    ends normally with every payload bit consumed and the cursor within
    the buffer; the ran-out-of-buffer failure does not occur. *)
Theorem embed_walk_in_bounds data text :
  PixelBuffer data -> is_js_string text ->
  (32 + bitlength text <= length data / 4 * 3)%nat ->
  snd (encodeTextInImage data text) <> Failed InternalInconsistency /\
  (forall payload, fullBinaryPayload text = inr payload ->
     let st := embed_loop (S (length data)) payload data 0 0 in
     e_exit st = LoopDone /\ e_payloadIndex st = length payload /\
     (e_dataIndex st <= length data)%nat) /\
  (Z.of_nat (bitlength text) < 2 ^ 32 -> snd (encodeTextInImage data text) = Done tt).
Proof.
  intros Hbuf Hs. rewrite (capacity_PixelBuffer data Hbuf). intros Hcap.
  assert (Hwalk : forall payload, fullBinaryPayload text = inr payload ->
            (length payload <= maxEmbeddableBits data)%nat).
  { intros payload E. destruct (fullBinaryPayload_spec text payload Hs E) as (-> & _). exact Hcap. }
  split; [| split].
  - destruct (fullBinaryPayload text) as [e | payload] eqn:E.
    + destruct (Z.lt_ge_cases (Z.of_nat (bitlength text)) (2 ^ 32)) as [Hlt | Hge].
      * destruct (fullBinaryPayload_fits text Hs Hlt) as (s & E' & _). congruence.
      * rewrite encodeTextInImage_overflow by assumption. rewrite snd_pair. discriminate.
    + rewrite (encodeTextInImage_done data text payload E (Hwalk payload eq_refl)).
      rewrite snd_pair. discriminate.
  - intros payload E st.
    destruct (embed_walk_done data payload (Hwalk payload E)) as (H1 & H2 & H3 & _).
    auto.
  - intros Hlt. destruct (fullBinaryPayload_fits text Hs Hlt) as (s & E & _).
    rewrite (encodeTextInImage_done data text _ E (Hwalk _ E)). apply snd_pair.
Qed.

Lemma embed_walk_in_bounds_witness :
  PixelBuffer white_buffer /\ is_js_string hello /\
  (32 + bitlength hello <= length white_buffer / 4 * 3)%nat /\
  snd (encodeTextInImage white_buffer hello) <> Failed InternalInconsistency /\
  snd (encodeTextInImage white_buffer hello) = Done tt.
Proof.
  assert (Hbuf : PixelBuffer white_buffer) by reflexivity.
  assert (Hs : is_js_string hello)
    by (repeat constructor; unfold is_code_unit; lia).
  assert (Hcap : (32 + bitlength hello <= length white_buffer / 4 * 3)%nat) by (vm_compute; lia).
  pose proof (embed_walk_in_bounds white_buffer hello Hbuf Hs Hcap) as (H1 & _ & H3).
  refine (conj Hbuf (conj Hs (conj Hcap (conj H1 (H3 _))))).
  vm_compute. reflexivity.
Defined.

(** C10: after a successful embed of a payload of
    n = 32 + bitlength(utf8(text)) bits, payload bit k sits in the byte at
    index 4*floor(k/3) + (k mod 3), and every byte at an index above that
    of bit n-1 is unchanged. *)
Theorem embed_bit_positions (data : list Z) text data' :
  is_js_string text ->
  encodeTextInImage data text = (data', Done tt) ->
  let n := (32 + bitlength text)%nat in
  exists payload,
    fullBinaryPayload text = inr payload /\ length payload = n /\
    (forall k, (k < n)%nat ->
       exists c old,
         payload !! k = Some c /\ is_bit_char c /\
         data !! (4 * (k / 3) + k mod 3)%nat = Some old /\
         data' !! (4 * (k / 3) + k mod 3)%nat = Some (Z.lor (Z.land old 0xFE) (c - chr_0))) /\
    (forall i, (4 * ((n - 1) / 3) + (n - 1) mod 3 < i)%nat -> data' !! i = data !! i).
Proof.
  intros Hs Henc n.
  destruct (embed_result data text data' Hs Henc)
    as (payload & E & Hlen & _ & _ & _ & Hbits & Hother).
  exists payload. fold n in Hlen. rewrite Hlen in Hbits, Hother.
  split; [exact E |]. split; [exact Hlen |]. split.
  - intros k Hk. destruct (Hbits k Hk) as (c & old & Hc & Hbit & Hold & Hnew & _).
    exists c, old. auto.
  - intros i Hi. apply Hother. apply not_written_after; [unfold n; lia | exact Hi].
Qed.

Lemma embed_bit_positions_witness :
  is_js_string hello /\
  exists data',
    encodeTextInImage white_buffer hello = (data', Done tt) /\
    data' !! 95%nat = white_buffer !! 95%nat /\
    exists c old,
      is_bit_char c /\ white_buffer !! 5%nat = Some old /\
      data' !! 5%nat = Some (Z.lor (Z.land old 0xFE) (c - chr_0)).
Proof.
  assert (Hs : is_js_string hello)
    by (repeat constructor; unfold is_code_unit; lia).
  assert (Henc : encodeTextInImage white_buffer hello = (fst (encodeTextInImage white_buffer hello), Done tt))
    by (vm_compute; reflexivity).
  refine (conj Hs (ex_intro _ _ (conj Henc _))).
  destruct (embed_bit_positions white_buffer hello _ Hs Henc) as (payload & _ & _ & Hbits & Hrest).
  split.
  - apply Hrest. vm_compute. lia.
  - destruct (Hbits 4%nat ltac:(vm_compute; lia)) as (c & old & _ & Hc & Hold & Hnew).
    exists c, old. auto.
Defined.

Lemma chunks_take n (s : js_string) : chunks n (take (8 * n) s) = chunks n s.
Proof.
  revert s; induction n as [| n IH]; intros s; [reflexivity |].
  cbn [chunks]. rewrite take_take.
  replace (8 `min` (8 * S n))%nat with 8%nat by lia.
  f_equal. rewrite skipn_firstn_comm.
  replace (8 * S n - 8)%nat with (8 * n)%nat by lia.
  apply IH.
Qed.

(** C2 fails on the code: a string of nine binary digits is decoded to the
    text of its first eight, with two warnings on the console and no
    failure. *)
Lemma decode_bits_counterexample :
  (length nine_bits mod 8 <> 0)%nat /\
  binaryToUTF8Text nine_bits =
    ([WarnNotMultipleOf8; WarnPartialByte [chr_0]], Done [97]).
Proof. split; [cbv; lia | vm_compute; reflexivity]. Qed.

(** C2, amended: on a string whose length is not a multiple of 8 the
    decoder warns twice on the console, drops the trailing partial byte
    and returns what the full bytes before it decode to: their text, or
    the invalid-UTF-8 failure; it reports no malformed-payload failure. *)
Theorem decode_bits_drops_partial_byte (s : js_string) :
  (length s mod 8 <> 0)%nat ->
  let full := take (length s - length s mod 8) s in
  let partial := drop (length s - length s mod 8) s in
  (length full mod 8 = 0)%nat /\
  binaryToUTF8Text s =
    ([WarnNotMultipleOf8; WarnPartialByte partial] ++ fst (binaryToUTF8Text full),
     snd (binaryToUTF8Text full)) /\
  ((exists text, snd (binaryToUTF8Text s) = Done text) \/
   snd (binaryToUTF8Text s) = Failed InvalidEncoding).
Proof.
  intros Hmod full partial.
  assert (Hcut : (length s - length s mod 8 = 8 * (length s / 8))%nat) by lia.
  assert (Hfull : length full = (8 * (length s / 8))%nat)
    by (unfold full; rewrite length_take; lia).
  assert (E : binaryToUTF8Text s =
    ([WarnNotMultipleOf8; WarnPartialByte partial] ++ fst (binaryToUTF8Text full),
     snd (binaryToUTF8Text full))).
  { rewrite (binaryToUTF8Text_spec s), (binaryToUTF8Text_spec full). cbv zeta.
    unfold partial_warning. rewrite Hfull.
    replace ((8 * (length s / 8)) mod 8)%nat with 0%nat by lia.
    replace ((8 * (length s / 8)) / 8)%nat with (length s / 8)%nat by lia.
    destruct (Nat.eqb_spec (length s mod 8) 0) as [E0 | _]; [contradiction |].
    cbn [negb Nat.eqb app].
    unfold full. rewrite Hcut, chunks_take. fold partial.
    unfold partial. rewrite Hcut.
    destruct (Encoding.TextDecoder_decode _); reflexivity. }
  split; [rewrite Hfull; lia |]. split; [exact E |].
  rewrite E, snd_pair. rewrite (binaryToUTF8Text_spec full). cbv zeta.
  destruct (Encoding.TextDecoder_decode _); rewrite snd_pair; eauto.
Qed.

Lemma decode_bits_drops_partial_byte_witness :
  (length nine_bits mod 8 <> 0)%nat /\
  binaryToUTF8Text nine_bits =
    ([WarnNotMultipleOf8; WarnPartialByte [chr_0]] ++ fst (binaryToUTF8Text (take 8 nine_bits)),
     snd (binaryToUTF8Text (take 8 nine_bits))).
Proof.
  assert (H : (length nine_bits mod 8 <> 0)%nat) by (cbv; lia).
  exact (conj H (proj1 (proj2 (decode_bits_drops_partial_byte nine_bits H)))).
Defined.

(** C3: for a buffer of four bytes per pixel and a text whose bit string
    an engine can hold (fewer than 2^32 characters), the embed fails with
    CapacityExceeded exactly when 32 + bitlength(utf8(text)) exceeds
    floor(buffer.length/4)*3, and succeeds otherwise (so a message of
    exactly capacity - 32 bits succeeds and one bit more fails); on that
    failure no byte of the buffer is modified. *)
Theorem embed_capacity_check data text :
  PixelBuffer data -> is_js_string text ->
  Z.of_nat (bitlength text) < 2 ^ 32 ->
  let capacity := (length data / 4 * 3)%nat in
  let required := (32 + bitlength text)%nat in
  ((exists available needed,
      snd (encodeTextInImage data text) = Failed (CapacityExceeded available needed)) <->
   (capacity < required)%nat) /\
  ((capacity < required)%nat ->
   encodeTextInImage data text = (data, Failed (CapacityExceeded capacity required))) /\
  ((required <= capacity)%nat -> snd (encodeTextInImage data text) = Done tt) /\
  (forall e, snd (encodeTextInImage data text) = Failed e ->
             fst (encodeTextInImage data text) = data).
Proof.
  intros Hbuf Hs Hlt capacity required. subst capacity required.
  rewrite (capacity_PixelBuffer data Hbuf).
  assert (Hfail : (maxEmbeddableBits data < 32 + bitlength text)%nat ->
    encodeTextInImage data text =
      (data, Failed (CapacityExceeded (maxEmbeddableBits data) (32 + bitlength text))))
    by (intros; now apply encodeTextInImage_capacity).
  assert (Hok : (32 + bitlength text <= maxEmbeddableBits data)%nat ->
    snd (encodeTextInImage data text) = Done tt).
  { intros Hcap. destruct (fullBinaryPayload_fits text Hs Hlt) as (s & E & Hlen & _).
    rewrite (encodeTextInImage_done data text _ E); [apply snd_pair |].
    rewrite length_app, Hlen, textToUTF8Binary_length by assumption. exact Hcap. }
  split; [split |]; [| | split; [exact Hfail | split; [exact Hok |]]].
  - intros (a & r & H).
    destruct (Nat.lt_ge_cases (maxEmbeddableBits data) (32 + bitlength text)) as [Hc | Hc];
      [exact Hc |].
    rewrite (Hok Hc) in H. discriminate.
  - intros Hc. eexists _, _. rewrite (Hfail Hc). apply snd_pair.
  - intros e He.
    destruct (Nat.lt_ge_cases (maxEmbeddableBits data) (32 + bitlength text)) as [Hc | Hc].
    + rewrite (Hfail Hc). apply fst_pair.
    + rewrite (Hok Hc) in He. discriminate.
Qed.

Lemma embed_capacity_check_witness :
  PixelBuffer white_buffer /\ is_js_string hello /\ is_js_string hello_bang /\
  Z.of_nat (bitlength hello) < 2 ^ 32 /\ Z.of_nat (bitlength hello_bang) < 2 ^ 32 /\
  bitlength hello = (length white_buffer / 4 * 3 - 32)%nat /\
  snd (encodeTextInImage white_buffer hello) = Done tt /\
  encodeTextInImage white_buffer hello_bang =
    (white_buffer, Failed (CapacityExceeded 72 80)).
Proof.
  assert (Hbuf : PixelBuffer white_buffer) by reflexivity.
  assert (Hs : is_js_string hello) by (repeat constructor; unfold is_code_unit; lia).
  assert (Hs' : is_js_string hello_bang) by (repeat constructor; unfold is_code_unit; lia).
  assert (Hlt : Z.of_nat (bitlength hello) < 2 ^ 32) by (vm_compute; reflexivity).
  assert (Hlt' : Z.of_nat (bitlength hello_bang) < 2 ^ 32) by (vm_compute; reflexivity).
  refine (conj Hbuf (conj Hs (conj Hs' (conj Hlt (conj Hlt' (conj eq_refl (conj _ _))))))).
  - apply (proj1 (proj2 (proj2 (embed_capacity_check white_buffer hello Hbuf Hs Hlt)))).
    vm_compute. lia.
  - refine (eq_trans
      (proj1 (proj2 (embed_capacity_check white_buffer hello_bang Hbuf Hs' Hlt')) _) _);
      [vm_compute; lia | vm_compute; reflexivity].
Defined.

Lemma bitlength_zero text : bitlength text = 0%nat -> text = [].
Proof.
  destruct text as [| u r]; [reflexivity |]. intros H. exfalso.
  unfold bitlength, Encoding.TextEncoder_encode in H.
  assert (Hne : exists cp cps, Encoding.to_scalar_values (u :: r) = cp :: cps).
  { cbn [Encoding.to_scalar_values].
    destruct (Encoding.is_high_surrogate u);
      [destruct r as [| v r']; [| destruct (Encoding.is_low_surrogate v)]
      | destruct (Encoding.is_low_surrogate u)]; eauto. }
  destruct Hne as (cp & cps & E). rewrite E, fmap_cons in H.
  cbn [concat] in H. rewrite length_app in H.
  assert (1 <= length (Encoding.utf8_encode_code_point cp))%nat.
  { unfold Encoding.utf8_encode_code_point.
    repeat match goal with |- context [Z.leb ?a ?b] => destruct (Z.leb a b) end;
      cbn [length]; lia. }
  lia.
Qed.

(** The characters the extractor reads from an embedded buffer are the
    characters of the payload. *)
Lemma lsb_chars_payload (data' : list Z) payload a m :
  (forall k, (k < length payload)%nat ->
     exists c, payload !! k = Some c /\ lsb_char data' k = c) ->
  (a + m <= length payload)%nat ->
  lsb_char data' <$> seq a m = take m (drop a payload).
Proof.
  intros Hbits Hlen. apply list_eq. intros i.
  rewrite list_lookup_fmap, lookup_take, lookup_drop.
  destruct (decide (i < m)%nat) as [Hi | Hi].
  - rewrite lookup_seq_lt by exact Hi. cbn [fmap option_fmap option_map].
    destruct (Hbits (a + i)%nat ltac:(lia)) as (c & -> & ->). reflexivity.
  - rewrite lookup_seq_ge by lia. reflexivity.
Qed.

(** The two conditions on the string cannot be dropped: a leading
    U+FEFF is lost and an unpaired surrogate comes back as U+FFFD. *)
Lemma unprintable_text_is_not_recovered :
  (is_js_string bom_text /\ PixelBuffer white_buffer /\
   (32 + bitlength bom_text <= length white_buffer / 4 * 3)%nat /\
   snd (decodeTextFromImage (fst (encodeTextInImage white_buffer bom_text))) = Done [104; 105]) /\
  (is_js_string lone_surrogate /\
   (32 + bitlength lone_surrogate <= length white_buffer / 4 * 3)%nat /\
   snd (decodeTextFromImage (fst (encodeTextInImage white_buffer lone_surrogate)))
     = Done [0xFFFD]).
Proof.
  split.
  - split; [repeat constructor; unfold is_code_unit; lia |].
    split; [reflexivity |]. split; [vm_compute; lia | vm_compute; reflexivity].
  - split; [repeat constructor; unfold is_code_unit; lia |].
    split; [vm_compute; lia | vm_compute; reflexivity].
Qed.

(** C1: for every printable-Unicode string t and every pixel buffer b
    whose length is a multiple of 4 and whose capacity
    floor(b.length/4)*3 is at least 32 + bitlength(utf8(t)), embedding t
    into b succeeds and extracting from the mutated buffer returns exactly
    t.  Of a printable string the proof uses only that it is well-formed
    (no unpaired surrogate) and does not start with U+FEFF, and of a string
    that the code can be given that its bit string, a string itself, has
    fewer than 2^32 characters. *)
Theorem embed_extract_round_trip data text :
  is_js_string text ->
  Encoding.isWellFormed text = true ->
  head text <> Some 0xFEFF ->
  Z.of_nat (bitlength text) < 2 ^ 32 ->
  PixelBuffer data ->
  (32 + bitlength text <= length data / 4 * 3)%nat ->
  exists data',
    encodeTextInImage data text = (data', Done tt) /\
    snd (decodeTextFromImage data') = Done text.
Proof.
  intros Hs Hwf Hbom Hlt Hbuf. rewrite (capacity_PixelBuffer data Hbuf). intros Hcap.
  destruct (fullBinaryPayload_fits text Hs Hlt) as (lengthBits & E & Hlen & Hbits & Hval).
  set (payload := lengthBits ++ textToUTF8Binary text) in *.
  assert (Hplen : length payload = (32 + bitlength text)%nat)
    by (unfold payload; rewrite length_app, Hlen, textToUTF8Binary_length by assumption;
        reflexivity).
  assert (Hfit : (length payload <= maxEmbeddableBits data)%nat) by lia.
  pose proof (encodeTextInImage_done data text payload E Hfit) as Henc.
  set (data' := e_data (embed_loop (S (length data)) payload data 0 0)) in *.
  exists data'. split; [exact Henc |].
  destruct (embed_result data text data' Hs Henc)
    as (payload' & E' & _ & _ & _ & Hl & Hread & _).
  assert (payload' = payload) by congruence. subst payload'.
  assert (Hchars : forall k, (k < length payload)%nat ->
            exists c, payload !! k = Some c /\ lsb_char data' k = c).
  { intros k Hk. destruct (Hread k Hk) as (c & old & Hc & _ & _ & _ & Hl'). eauto. }
  assert (Hcap' : maxEmbeddableBits data' = maxEmbeddableBits data)
    by (unfold maxEmbeddableBits; rewrite Hl; reflexivity).
  assert (Hfield : length_field data' = Z.of_nat (bitlength text)).
  { rewrite <- prefix_value.
    rewrite (lsb_chars_payload data' payload 0 32 Hchars) by lia.
    rewrite drop_0. unfold payload.
    rewrite take_app_length' by (symmetry; exact Hlen). exact Hval. }
  rewrite decodeTextFromImage_spec, Hcap'.
  destruct (Nat.ltb_spec (maxEmbeddableBits data) 32); [lia |].
  cbv zeta. rewrite Hfield.
  destruct (Z.eqb_spec (Z.of_nat (bitlength text)) 0) as [E0 | Hne].
  - rewrite snd_pair. rewrite (bitlength_zero text); [reflexivity | lia].
  - destruct (Z.ltb_spec (Z.of_nat (maxEmbeddableBits data - 32)) (Z.of_nat (bitlength text)));
      [lia |].
    rewrite snd_pair, Nat2Z.id.
    rewrite (lsb_chars_payload data' payload 32 (bitlength text) Hchars) by lia.
    unfold payload. rewrite drop_app_length' by (symmetry; exact Hlen).
    rewrite take_ge by (rewrite textToUTF8Binary_length by assumption; lia).
    rewrite binaryToUTF8Text_textToUTF8Binary by assumption.
    rewrite TextDecoder_decode_encode by assumption. apply snd_pair.
Qed.

Lemma embed_extract_round_trip_witness :
  is_js_string hello /\ Encoding.isWellFormed hello = true /\
  head hello <> Some 0xFEFF /\ Z.of_nat (bitlength hello) < 2 ^ 32 /\
  PixelBuffer white_buffer /\
  (32 + bitlength hello <= length white_buffer / 4 * 3)%nat /\
  exists data',
    encodeTextInImage white_buffer hello = (data', Done tt) /\
    snd (decodeTextFromImage data') = Done hello.
Proof.
  assert (Hs : is_js_string hello) by (repeat constructor; unfold is_code_unit; lia).
  assert (Hwf : Encoding.isWellFormed hello = true) by reflexivity.
  assert (Hbom : head hello <> Some 0xFEFF) by discriminate.
  assert (Hlt : Z.of_nat (bitlength hello) < 2 ^ 32) by (vm_compute; reflexivity).
  assert (Hbuf : PixelBuffer white_buffer) by reflexivity.
  assert (Hcap : (32 + bitlength hello <= length white_buffer / 4 * 3)%nat)
    by (vm_compute; lia).
  refine (conj Hs (conj Hwf (conj Hbom (conj Hlt (conj Hbuf (conj Hcap _)))))).
  exact (embed_extract_round_trip white_buffer hello Hs Hwf Hbom Hlt Hbuf Hcap).
Defined.

End Claims.

(** * Further properties of the code *)

(** ** What the decoder accepts *)

Section DecoderInverse.

Import Encoding.

Ltac decide_head :=
  match goal with
  | |- (if ?c then _ else _) = _ =>
      let E := fresh "E" in
      destruct c eqn:E;
      rewrite ?negb_true_iff, ?negb_false_iff, ?andb_true_iff, ?andb_false_iff,
        ?Z.leb_le, ?Z.leb_gt, ?Z.eqb_eq, ?Z.eqb_neq in E;
      try (exfalso; lia)
  end.

Lemma utf8_handler_lead_error b :
  ~ (0 <= b <= 0x7F) -> ~ (0xC2 <= b <= 0xF4) ->
  utf8_handler utf8_decoder_init b = DecodeError.
Proof.
  intros H1 H2. unfold utf8_handler; cbn [bytes_needed utf8_decoder_init].
  now repeat decide_head.
Qed.

Lemma utf8_handler_continuation_error cp seen needed lo hi b :
  needed <> 0 -> ~ (lo <= b <= hi) ->
  utf8_handler {| code_point := cp; bytes_seen := seen; bytes_needed := needed;
                  lower_boundary := lo; upper_boundary := hi |} b = DecodeError.
Proof.
  intros Hn Hb. unfold utf8_handler;
    cbn [bytes_needed bytes_seen code_point lower_boundary upper_boundary].
  now repeat decide_head.
Qed.

(** One continuation byte, read in a state that needs some. *)
Lemma utf8_decode_continuation cp seen needed lo hi bytes r :
  needed <> 0 ->
  utf8_decode_from {| code_point := cp; bytes_seen := seen; bytes_needed := needed;
                      lower_boundary := lo; upper_boundary := hi |} bytes = Some r ->
  exists b rest,
    bytes = b :: rest /\ lo <= b <= hi /\
    (if seen + 1 =? needed
     then cons (cp * 64 + b mod 64) <$> utf8_decode_from utf8_decoder_init rest
     else utf8_decode_from
            {| code_point := cp * 64 + b mod 64; bytes_seen := seen + 1;
               bytes_needed := needed;
               lower_boundary := 0x80; upper_boundary := 0xBF |} rest) = Some r.
Proof.
  intros Hn H. destruct bytes as [| b rest]; cbn [utf8_decode_from bytes_needed] in H.
  - destruct (Z.eqb_spec needed 0); [contradiction | discriminate].
  - destruct (Z_le_dec lo b) as [Hlo | Hlo]; [destruct (Z_le_dec b hi) as [Hhi | Hhi] |].
    + exists b, rest. split; [reflexivity |]. split; [lia |].
      rewrite utf8_handler_continuation in H by (assumption || lia).
      destruct (seen + 1 =? needed); exact H.
    + rewrite utf8_handler_continuation_error in H by (assumption || lia). discriminate.
    + rewrite utf8_handler_continuation_error in H by (assumption || lia). discriminate.
Qed.

Lemma fmap_cons_Some {A} (x : A) (o : option (list A)) r :
  cons x <$> o = Some r -> exists r', o = Some r' /\ r = x :: r'.
Proof. destruct o as [r' |]; [| discriminate]. intros H. injection H as <-. eauto. Qed.

(** The decoder accepts only encodings: whatever it returns is a sequence
    of scalar values whose encoding is the input. *)
Lemma utf8_decode_from_inv (n : nat) :
  forall bytes cps,
    (length bytes <= n)%nat ->
    utf8_decode_from utf8_decoder_init bytes = Some cps ->
    Forall is_scalar_value cps /\ concat (utf8_encode_code_point <$> cps) = bytes.
Proof.
  induction n as [| n IH]; intros bytes cps Hlen H.
  - destruct bytes; [| cbn in Hlen; lia]. cbn in H. injection H as <-. split; [constructor | reflexivity].
  - destruct bytes as [| b rest].
    { cbn in H. injection H as <-. split; [constructor | reflexivity]. }
    cbn [length] in Hlen. cbn [utf8_decode_from] in H.
    assert (Hcase : 0 <= b <= 0x7F \/ 0xC2 <= b <= 0xDF \/ 0xE0 <= b <= 0xEF \/
                    0xF0 <= b <= 0xF4 \/ (~ (0 <= b <= 0x7F) /\ ~ (0xC2 <= b <= 0xF4))) by lia.
    destruct Hcase as [Hb | [Hb | [Hb | [Hb | [Hb1 Hb2]]]]].
    + rewrite utf8_handler_ascii in H by exact Hb.
      apply fmap_cons_Some in H as (r' & H & ->).
      destruct (IH rest r' ltac:(lia) H) as [Hsc Henc].
      split.
      * constructor; [unfold is_scalar_value; lia | exact Hsc].
      * rewrite fmap_cons. cbn [concat]. rewrite Henc.
        unfold utf8_encode_code_point.
        destruct (Z.leb_spec b 0x7F); [reflexivity | lia].
    + rewrite utf8_handler_lead2 in H by exact Hb.
      apply utf8_decode_continuation in H as (b2 & rest2 & -> & Hb2 & H); [| lia].
      change (0 + 1 =? 1) with true in H. cbv iota in H.
      apply fmap_cons_Some in H as (r' & H & ->).
      cbn [length] in Hlen.
      destruct (IH rest2 r' ltac:(lia) H) as [Hsc Henc].
      split.
      * constructor; [unfold is_scalar_value; lia | exact Hsc].
      * rewrite fmap_cons. cbn [concat]. rewrite Henc.
        unfold utf8_encode_code_point.
        destruct (Z.leb_spec (b mod 32 * 64 + b2 mod 64) 0x7F); [lia |].
        destruct (Z.leb_spec (b mod 32 * 64 + b2 mod 64) 0x7FF); [| lia].
        cbn [app]. f_equal; [lia | f_equal; lia].
    + rewrite utf8_handler_lead3 in H by exact Hb.
      apply utf8_decode_continuation in H as (b2 & rest2 & -> & Hb2 & H); [| lia].
      change (0 + 1 =? 2) with false in H. cbv iota in H.
      apply utf8_decode_continuation in H as (b3 & rest3 & -> & Hb3 & H); [| lia].
      change (0 + 1 + 1 =? 2) with true in H. cbv iota in H.
      apply fmap_cons_Some in H as (r' & H & ->).
      cbn [length] in Hlen.
      destruct (IH rest3 r' ltac:(lia) H) as [Hsc Henc].
      assert (Hlo : (if b =? 0xE0 then 0xA0 else 0x80) <= b2) by lia.
      assert (Hhi : b2 <= (if b =? 0xED then 0x9F else 0xBF)) by lia.
      clear Hb2.
      destruct (Z.eqb_spec b 0xE0); destruct (Z.eqb_spec b 0xED); try lia.
      all: split;
        [ constructor; [unfold is_scalar_value; lia | exact Hsc]
        | rewrite fmap_cons; cbn [concat]; rewrite Henc;
          unfold utf8_encode_code_point;
          destruct (Z.leb_spec ((b mod 16 * 64 + b2 mod 64) * 64 + b3 mod 64) 0x7F); [lia |];
          destruct (Z.leb_spec ((b mod 16 * 64 + b2 mod 64) * 64 + b3 mod 64) 0x7FF); [lia |];
          destruct (Z.leb_spec ((b mod 16 * 64 + b2 mod 64) * 64 + b3 mod 64) 0xFFFF); [| lia];
          cbn [app]; f_equal; [lia | f_equal; [lia | f_equal; lia]] ].
    + rewrite utf8_handler_lead4 in H by exact Hb.
      apply utf8_decode_continuation in H as (b2 & rest2 & -> & Hb2 & H); [| lia].
      change (0 + 1 =? 3) with false in H. cbv iota in H.
      apply utf8_decode_continuation in H as (b3 & rest3 & -> & Hb3 & H); [| lia].
      change (0 + 1 + 1 =? 3) with false in H. cbv iota in H.
      apply utf8_decode_continuation in H as (b4 & rest4 & -> & Hb4 & H); [| lia].
      change (0 + 1 + 1 + 1 =? 3) with true in H. cbv iota in H.
      apply fmap_cons_Some in H as (r' & H & ->).
      cbn [length] in Hlen.
      destruct (IH rest4 r' ltac:(lia) H) as [Hsc Henc].
      assert (Hlo : (if b =? 0xF0 then 0x90 else 0x80) <= b2) by lia.
      assert (Hhi : b2 <= (if b =? 0xF4 then 0x8F else 0xBF)) by lia.
      clear Hb2.
      destruct (Z.eqb_spec b 0xF0); destruct (Z.eqb_spec b 0xF4); try lia.
      all: split;
        [ constructor; [unfold is_scalar_value; lia | exact Hsc]
        | rewrite fmap_cons; cbn [concat]; rewrite Henc;
          unfold utf8_encode_code_point;
          destruct (Z.leb_spec (((b mod 8 * 64 + b2 mod 64) * 64 + b3 mod 64) * 64 + b4 mod 64) 0x7F); [lia |];
          destruct (Z.leb_spec (((b mod 8 * 64 + b2 mod 64) * 64 + b3 mod 64) * 64 + b4 mod 64) 0x7FF); [lia |];
          destruct (Z.leb_spec (((b mod 8 * 64 + b2 mod 64) * 64 + b3 mod 64) * 64 + b4 mod 64) 0xFFFF); [lia |];
          cbn [app]; f_equal; [lia | f_equal; [lia | f_equal; [lia | f_equal; lia]]] ].
    + rewrite utf8_handler_lead_error in H by assumption. discriminate.
Qed.

(** Scalar values as UTF-16, and back. *)
Lemma utf16_of_scalar_values cps :
  Forall is_scalar_value cps ->
  let s := concat (utf16_of_code_point <$> cps) in
  is_js_string s /\ isWellFormed s = true /\ to_scalar_values s = cps.
Proof.
  induction 1 as [| cp cps Hcp _ IH]; [repeat split; constructor |].
  cbv zeta in *. destruct IH as (Hs & Hwf & Hsv).
  rewrite fmap_cons. cbn [concat]. unfold utf16_of_code_point at 1 3 5.
  unfold is_scalar_value in Hcp.
  destruct (Z.leb_spec cp 0xFFFF) as [Hbmp | Hsup]; cbn [app].
  - assert (Eh : is_high_surrogate cp = false)
      by (unfold is_high_surrogate; apply andb_false_iff; rewrite !Z.leb_gt; lia).
    assert (El : is_low_surrogate cp = false)
      by (unfold is_low_surrogate; apply andb_false_iff; rewrite !Z.leb_gt; lia).
    split; [| split].
    + constructor; [unfold is_code_unit; lia | exact Hs].
    + cbn [isWellFormed]. rewrite Eh, El. exact Hwf.
    + cbn [to_scalar_values]. rewrite Eh, El, Hsv. reflexivity.
  - set (hi := 0xD800 + (cp - 0x10000) / 0x400).
    set (lo := 0xDC00 + (cp - 0x10000) mod 0x400).
    assert (Eh : is_high_surrogate hi = true)
      by (unfold is_high_surrogate, hi; apply andb_true_iff; rewrite !Z.leb_le; lia).
    assert (El : is_low_surrogate lo = true)
      by (unfold is_low_surrogate, lo; apply andb_true_iff; rewrite !Z.leb_le; lia).
    split; [| split].
    + constructor; [unfold is_code_unit, hi; lia |].
      constructor; [unfold is_code_unit, lo; lia | exact Hs].
    + cbn [isWellFormed]. rewrite Eh, El. exact Hwf.
    + cbn [to_scalar_values]. rewrite Eh, El, Hsv. f_equal. unfold hi, lo. lia.
Qed.

(** What [TextDecoder] returns is a well-formed string that encodes to
    the decoded bytes, up to a byte-order mark at their front. *)
Lemma TextDecoder_decode_inv bytes text :
  TextDecoder_decode bytes = Some text ->
  is_js_string text /\ isWellFormed text = true /\
  (TextEncoder_encode text = bytes \/ bytes = bom_bytes ++ TextEncoder_encode text).
Proof.
  unfold TextDecoder_decode. intros H.
  destruct (utf8_decode_from utf8_decoder_init bytes) as [cps |] eqn:E; [| discriminate].
  cbn [fmap option_fmap option_map] in H. injection H as <-.
  destruct (utf8_decode_from_inv (length bytes) bytes cps (Nat.le_refl _) E) as [Hsc Henc].
  assert (Hstrip : Forall is_scalar_value (strip_bom cps) /\
            (strip_bom cps = cps \/ cps = 0xFEFF :: strip_bom cps)).
  { destruct cps as [| cp cps']; [split; [constructor | left; reflexivity] |].
    unfold strip_bom. destruct (Z.eqb_spec cp 0xFEFF) as [-> | _].
    - apply Forall_cons_1 in Hsc as [_ Hsc]. split; [exact Hsc | right; reflexivity].
    - split; [exact Hsc | left; reflexivity]. }
  destruct Hstrip as [Hsc' Hcases].
  destruct (utf16_of_scalar_values (strip_bom cps) Hsc') as (Hs & Hwf & Hsv).
  split; [exact Hs |]. split; [exact Hwf |].
  unfold TextEncoder_encode. rewrite Hsv.
  destruct Hcases as [E' | E'].
  - left. rewrite E'. exact Henc.
  - right. rewrite <- Henc. rewrite E' at 1. rewrite fmap_cons. reflexivity.
Qed.

End DecoderInverse.

(** ** The bit-payload codec, continued *)

Section CodecProperties.

Import Encoding.

(** X1: [numberToBinary] writes a number below 2^bits on exactly [bits] binary
    digits that [parseInt] reads back, and throws on any larger number. *)
Theorem numberToBinary_correct n (bits : nat) :
  0 <= n -> (0 < bits)%nat ->
  (n < 2 ^ Z.of_nat bits ->
   exists s, numberToBinary n bits = inr s /\ length s = bits /\
             Forall is_bit_char s /\ JS.parseInt s 2 = Some n) /\
  (2 ^ Z.of_nat bits <= n -> numberToBinary n bits = inl (Overflow n bits)).
Proof.
  intros Hn Hbits. unfold numberToBinary, JS.repeat1. split.
  - intros Hlt.
    assert (Hlen : (length (JS.toString2 n) <= bits)%nat)
      by (apply toString2_length; assumption).
    destruct (Nat.ltb_spec bits (length (JS.toString2 n))) as [Hgt | _]; [lia |].
    destruct (padded_binary n bits (conj Hn Hlt) Hbits) as (Hl & Hb & Hv).
    eexists. split; [reflexivity |]. split; [exact Hl |]. split; [exact Hb |].
    rewrite parseInt_bits; [now rewrite Hv | exact Hb |].
    intros E. rewrite E in Hl. cbn in Hl. lia.
  - intros Hge.
    destruct (Nat.ltb_spec bits (length (JS.toString2 n))) as [_ | Hle]; [reflexivity |].
    apply toString2_length in Hle; [lia | assumption | assumption].
Qed.

Lemma numberToBinary_correct_witness :
  numberToBinary 5 8 = inr [48; 48; 48; 48; 48; 49; 48; 49] /\
  numberToBinary 256 8 = inl (Overflow 256 8).
Proof.
  destruct (numberToBinary_correct 5 8 ltac:(lia) ltac:(lia)) as [Hfit _].
  destruct (numberToBinary_correct 256 8 ltac:(lia) ltac:(lia)) as [_ Hover].
  destruct (Hfit ltac:(cbv; reflexivity)) as (s & E & _).
  split; [reflexivity |]. apply Hover. cbv. discriminate.
Defined.

Lemma utf8_encode_code_point_length cp :
  is_scalar_value cp ->
  (1 <= length (utf8_encode_code_point cp) <= 4)%nat /\
  (cp <= 0xFFFF -> (length (utf8_encode_code_point cp) <= 3)%nat) /\
  (0xFFFF < cp -> length (utf8_encode_code_point cp) = 4%nat).
Proof.
  intros Hcp. unfold utf8_encode_code_point.
  destruct (Z.leb_spec cp 0x7F); [| destruct (Z.leb_spec cp 0x7FF);
    [| destruct (Z.leb_spec cp 0xFFFF)]]; cbn [length]; lia.
Qed.

(** Every code unit costs between one and three bytes of UTF-8. *)
Lemma TextEncoder_encode_length s :
  is_js_string s ->
  (length s <= length (TextEncoder_encode s) <= 3 * length s)%nat.
Proof.
  unfold is_js_string, TextEncoder_encode.
  induction s as [| x | x y l IHl IHyl] using list_pair_ind; intros Hs.
  - cbn. lia.
  - apply Forall_cons_1 in Hs as [Hx _]. unfold is_code_unit in Hx.
    cbn [to_scalar_values].
    destruct (is_high_surrogate x) eqn:Eh; [cbn; lia |].
    destruct (is_low_surrogate x) eqn:El; [cbn; lia |].
    rewrite fmap_cons. cbn [fmap list_fmap concat length]. rewrite app_nil_r.
    unfold is_high_surrogate in Eh. unfold is_low_surrogate in El.
    apply andb_false_iff in Eh. apply andb_false_iff in El.
    rewrite !Z.leb_gt in Eh, El.
    destruct (utf8_encode_code_point_length x) as (H1 & H2 & _);
      [unfold is_scalar_value; lia |].
    specialize (H2 ltac:(lia)). lia.
  - apply Forall_cons_1 in Hs as [Hx Hyl].
    pose proof Hyl as Hyl'. apply Forall_cons_1 in Hyl' as [Hy Hl].
    specialize (IHl Hl). specialize (IHyl Hyl).
    unfold is_code_unit in Hx, Hy.
    change (to_scalar_values (x :: y :: l)) with
      (if is_high_surrogate x then
         if is_low_surrogate y
         then (0x10000 + (x - 0xD800) * 0x400 + (y - 0xDC00)) :: to_scalar_values l
         else 0xFFFD :: to_scalar_values (y :: l)
       else if is_low_surrogate x then 0xFFFD :: to_scalar_values (y :: l)
       else x :: to_scalar_values (y :: l)).
    cbn [length] in *.
    destruct (is_high_surrogate x) eqn:Eh.
    + destruct (is_low_surrogate y) eqn:El.
      * unfold is_high_surrogate in Eh. unfold is_low_surrogate in El.
        apply andb_true_iff in Eh. apply andb_true_iff in El.
        rewrite !Z.leb_le in Eh, El.
        rewrite fmap_cons. cbn [concat]. rewrite length_app.
        destruct (utf8_encode_code_point_length
                    (0x10000 + (x - 0xD800) * 0x400 + (y - 0xDC00))) as (_ & _ & H4);
          [unfold is_scalar_value; lia |].
        rewrite H4 by lia. lia.
      * rewrite fmap_cons. cbn [concat]. rewrite length_app.
        change (length (utf8_encode_code_point 0xFFFD)) with 3%nat. lia.
    + destruct (is_low_surrogate x) eqn:El.
      * rewrite fmap_cons. cbn [concat]. rewrite length_app.
        change (length (utf8_encode_code_point 0xFFFD)) with 3%nat. lia.
      * unfold is_high_surrogate in Eh. unfold is_low_surrogate in El.
        apply andb_false_iff in Eh. apply andb_false_iff in El.
        rewrite !Z.leb_gt in Eh, El.
        rewrite fmap_cons. cbn [concat]. rewrite length_app.
        destruct (utf8_encode_code_point_length x) as (H1 & H2 & _);
          [unfold is_scalar_value; lia |].
        specialize (H2 ltac:(lia)). lia.
Qed.

(** X2: [textToUTF8Binary] returns binary digits only, eight for each byte of
    the UTF-8 encoding, hence between 8 and 24 for each code unit of the
    text. *)
Theorem textToUTF8Binary_shape text :
  is_js_string text ->
  Forall is_bit_char (textToUTF8Binary text) /\
  length (textToUTF8Binary text) = (8 * length (TextEncoder_encode text))%nat /\
  (8 * length text <= length (textToUTF8Binary text) <= 24 * length text)%nat.
Proof.
  intros Hs. pose proof (TextEncoder_encode_length text Hs) as Hb.
  pose proof (textToUTF8Binary_length text Hs) as Hl. unfold bitlength in Hl.
  split; [now apply textToUTF8Binary_bits |]. split; [exact Hl | lia].
Qed.

Lemma textToUTF8Binary_shape_witness :
  is_js_string hello /\ length (textToUTF8Binary hello) = 40%nat.
Proof.
  assert (Hs : is_js_string hello) by (repeat constructor; unfold is_code_unit; lia).
  split; [exact Hs |].
  exact (eq_trans (proj1 (proj2 (textToUTF8Binary_shape hello Hs))) eq_refl).
Defined.

(** X3: The text codec alone: the bits of a well-formed string that does not
    start with U+FEFF decode to the string, with nothing on the console. *)
Theorem codec_round_trip text :
  is_js_string text -> isWellFormed text = true -> head text <> Some 0xFEFF ->
  binaryToUTF8Text (textToUTF8Binary text) = ([], Done text).
Proof.
  intros Hs Hwf Hbom.
  rewrite binaryToUTF8Text_textToUTF8Binary by assumption.
  now rewrite TextDecoder_decode_encode.
Qed.

Lemma codec_round_trip_witness :
  is_js_string hello /\ isWellFormed hello = true /\ head hello <> Some 0xFEFF /\
  binaryToUTF8Text (textToUTF8Binary hello) = ([], Done hello).
Proof.
  assert (Hs : is_js_string hello) by (repeat constructor; unfold is_code_unit; lia).
  assert (Hbom : head hello <> Some 0xFEFF) by discriminate.
  refine (conj Hs (conj eq_refl (conj Hbom _))).
  exact (codec_round_trip hello Hs eq_refl Hbom).
Defined.

Lemma byte8_injective b1 b2 :
  Forall is_byte b1 -> Forall is_byte b2 ->
  concat (byte8 <$> b1) = concat (byte8 <$> b2) -> b1 = b2.
Proof.
  intros H1 H2 E.
  assert (Hlen : length b1 = length b2).
  { apply (f_equal length) in E. rewrite !concat_byte8_length in E by assumption. lia. }
  pose proof (chunks_concat_byte8 b1 [] H1) as C1.
  pose proof (chunks_concat_byte8 b2 [] H2) as C2.
  rewrite app_nil_r in C1, C2. rewrite E, Hlen, C2 in C1.
  rewrite <- (parse_byte8 b1 H1), <- (parse_byte8 b2 H2), C1. reflexivity.
Qed.

(** X4: Two well-formed strings with the same bits are the same string. *)
Theorem textToUTF8Binary_injective t1 t2 :
  is_js_string t1 -> isWellFormed t1 = true ->
  is_js_string t2 -> isWellFormed t2 = true ->
  textToUTF8Binary t1 = textToUTF8Binary t2 -> t1 = t2.
Proof.
  intros Hs1 Hw1 Hs2 Hw2 E.
  rewrite !textToUTF8Binary_concat in E.
  apply byte8_injective in E; try (apply TextEncoder_encode_bytes; assumption).
  unfold TextEncoder_encode in E.
  pose proof (utf8_decode_encode _ (to_scalar_values_scalar t1 Hs1)) as D1.
  pose proof (utf8_decode_encode _ (to_scalar_values_scalar t2 Hs2)) as D2.
  rewrite E, D2 in D1. injection D1 as D.
  rewrite <- (utf16_of_to_scalar_values t1 Hs1 Hw1),
          <- (utf16_of_to_scalar_values t2 Hs2 Hw2), D. reflexivity.
Qed.

Lemma textToUTF8Binary_injective_witness :
  is_js_string hello /\ isWellFormed hello = true /\
  is_js_string bom_text /\ isWellFormed bom_text = true /\
  textToUTF8Binary hello <> textToUTF8Binary bom_text.
Proof.
  assert (Hs : is_js_string hello) by (repeat constructor; unfold is_code_unit; lia).
  assert (Hs' : is_js_string bom_text) by (repeat constructor; unfold is_code_unit; lia).
  refine (conj Hs (conj eq_refl (conj Hs' (conj eq_refl _)))).
  intros E.
  pose proof (textToUTF8Binary_injective hello bom_text Hs eq_refl Hs' eq_refl E) as H.
  discriminate H.
Defined.

End CodecProperties.

Section DecodedText.

Import Encoding.

(** Eight binary digits are the eight digits of the byte they denote. *)
Lemma byte8_bin_value c :
  length c = 8%nat -> Forall is_bit_char c ->
  is_byte (bin_value c) /\ byte8 (bin_value c) = c.
Proof.
  intros Hlen Hbits.
  do 8 (destruct c as [| ? c]; [discriminate Hlen |]).
  destruct c; [| discriminate Hlen]. clear Hlen.
  repeat match goal with
    | H : Forall _ (_ :: _) |- _ => apply Forall_cons_1 in H as [? ?]
    end.
  repeat match goal with
    | H : is_bit_char _ |- _ => destruct H as [-> | ->]
    end;
  (split; [unfold is_byte; vm_compute; split; discriminate | vm_compute; reflexivity]).
Qed.

(** A binary string of 8n digits is the digits of the n bytes that
    [binaryToUTF8Text] makes of it. *)
Lemma chunks_as_bytes (n : nat) :
  forall s, length s = (8 * n)%nat -> Forall is_bit_char s ->
    let bytes := JS.ToUint8 <$> ((fun c => JS.parseInt c 2) <$> chunks n s) in
    Forall is_byte bytes /\ concat (byte8 <$> bytes) = s.
Proof.
  induction n as [| n IH]; intros s Hlen Hbits; cbv zeta.
  - destruct s; [| discriminate Hlen]. split; [constructor | reflexivity].
  - cbn [chunks]. rewrite !fmap_cons. cbn [concat].
    assert (Hc : length (take 8 s) = 8%nat) by (rewrite length_take; lia).
    assert (Hcb : Forall is_bit_char (take 8 s)) by (apply Forall_take, Hbits).
    destruct (byte8_bin_value (take 8 s) Hc Hcb) as [Hbyte Hback].
    rewrite parseInt_bits by (exact Hcb || (intros E; rewrite E in Hc; discriminate)).
    assert (Hv : JS.ToUint8 (Some (bin_value (take 8 s))) = bin_value (take 8 s))
      by (unfold JS.ToUint8; unfold is_byte in Hbyte; lia).
    rewrite Hv.
    destruct (IH (drop 8 s)) as [Hbytes Hcat];
      [rewrite length_drop; lia | apply Forall_drop, Hbits |].
    cbv zeta in Hbytes, Hcat.
    split; [constructor; assumption |].
    rewrite Hback, Hcat. apply take_drop.
Qed.

(** X5: Whatever [binaryToUTF8Text] returns is a well-formed string, and when
    its input is a binary string of whole bytes the bits of the returned
    text are the input, or the input without the 24 bits of a leading
    byte-order mark. *)
Theorem decoded_text_re_encodes s text :
  snd (binaryToUTF8Text s) = Done text ->
  is_js_string text /\ isWellFormed text = true /\
  (Forall is_bit_char s -> (length s mod 8 = 0)%nat ->
   textToUTF8Binary text = s \/
   s = concat (byte8 <$> bom_bytes) ++ textToUTF8Binary text).
Proof.
  rewrite binaryToUTF8Text_spec. cbv zeta.
  destruct (TextDecoder_decode _) as [t |] eqn:E; rewrite snd_pair; [| discriminate].
  intros H. injection H as ->.
  destruct (TextDecoder_decode_inv _ _ E) as (Hs & Hwf & Henc).
  split; [exact Hs |]. split; [exact Hwf |].
  intros Hbits Hmod.
  destruct (chunks_as_bytes (length s / 8) s ltac:(lia) Hbits) as [_ Hcat].
  cbv zeta in Hcat. rewrite textToUTF8Binary_concat.
  destruct Henc as [-> | Hbom].
  - left. exact Hcat.
  - right. rewrite <- Hcat at 1. rewrite Hbom, fmap_app, concat_app. reflexivity.
Qed.

Lemma decoded_text_re_encodes_witness :
  snd (binaryToUTF8Text hi_bits) = Done hi /\
  is_js_string hi /\ isWellFormed hi = true /\ textToUTF8Binary hi = hi_bits.
Proof.
  assert (H : snd (binaryToUTF8Text hi_bits) = Done hi) by (vm_compute; reflexivity).
  destruct (decoded_text_re_encodes hi_bits hi H) as (Hs & Hwf & Hre).
  refine (conj H (conj Hs (conj Hwf _))).
  destruct (Hre ltac:(repeat (constructor; [(left; reflexivity) || (right; reflexivity) |]); constructor) eq_refl) as [E | E];
    [exact E | discriminate E].
Defined.

End DecodedText.

(** ** Embedding and extracting, continued *)

Section ServiceProperties.

Import Encoding.

(** Extraction from a buffer in which a string was embedded: the prefix
    holds the bit length, the message bits are the bits of the string, and
    the bytes read are the bytes written. *)
Lemma extract_after_embed (data : list Z) text data' :
  is_js_string text ->
  encodeTextInImage data text = (data', Done tt) ->
  length data' = length data /\
  (32 + bitlength text <= maxEmbeddableBits data)%nat /\
  length_field data' = Z.of_nat (bitlength text) /\
  decodeTextFromImage data' =
    (slot <$> seq 0 (32 + bitlength text),
     snd (binaryToUTF8Text (textToUTF8Binary text))).
Proof.
  intros Hs Henc.
  destruct (embed_result data text data' Hs Henc)
    as (payload & E & Hplen & _ & Hfit & Hl & Hread & _).
  destruct (fullBinaryPayload_spec text payload Hs E) as (_ & _ & Hlt).
  destruct (fullBinaryPayload_fits text Hs Hlt) as (lengthBits & E' & Hlen & _ & Hval).
  assert (Hp : payload = lengthBits ++ textToUTF8Binary text) by congruence.
  assert (Hchars : forall k, (k < length payload)%nat ->
            exists c, payload !! k = Some c /\ lsb_char data' k = c).
  { intros k Hk. destruct (Hread k Hk) as (c & old & Hc & _ & _ & _ & Hl'). eauto. }
  assert (Hcap' : maxEmbeddableBits data' = maxEmbeddableBits data)
    by (unfold maxEmbeddableBits; rewrite Hl; reflexivity).
  assert (Hfield : length_field data' = Z.of_nat (bitlength text)).
  { rewrite <- prefix_value.
    rewrite (lsb_chars_payload data' payload 0 32 Hchars) by lia.
    rewrite drop_0, Hp.
    rewrite take_app_length' by (symmetry; exact Hlen). exact Hval. }
  split; [exact Hl |]. split; [lia |]. split; [exact Hfield |].
  rewrite decodeTextFromImage_spec, Hcap'.
  destruct (Nat.ltb_spec (maxEmbeddableBits data) 32); [lia |].
  cbv zeta. rewrite Hfield.
  destruct (Z.eqb_spec (Z.of_nat (bitlength text)) 0) as [E0 | Hne].
  - assert (Hempty : text = []) by (apply bitlength_zero; lia).
    subst text. reflexivity.
  - destruct (Z.ltb_spec (Z.of_nat (maxEmbeddableBits data - 32)) (Z.of_nat (bitlength text)));
      [lia |].
    rewrite Nat2Z.id.
    rewrite (lsb_chars_payload data' payload 32 (bitlength text) Hchars) by lia.
    rewrite Hp, drop_app_length' by (symmetry; exact Hlen).
    rewrite take_ge by (rewrite textToUTF8Binary_length by assumption; lia).
    reflexivity.
Qed.

(** X6: The image channel loses nothing: when a string was embedded, the
    extractor reads exactly the 32 + bitlength bytes that were written and
    returns what the text codec alone makes of the string. *)
Theorem extract_reads_what_embed_wrote (data : list Z) text data' :
  is_js_string text ->
  encodeTextInImage data text = (data', Done tt) ->
  fst (decodeTextFromImage data') = slot <$> seq 0 (32 + bitlength text) /\
  (forall i, i ∈ fst (decodeTextFromImage data') <-> written (32 + bitlength text) i) /\
  snd (decodeTextFromImage data') = snd (binaryToUTF8Text (textToUTF8Binary text)).
Proof.
  intros Hs Henc.
  destruct (extract_after_embed data text data' Hs Henc) as (_ & _ & _ & E).
  rewrite E, fst_pair, snd_pair. split; [reflexivity |]. split; [| reflexivity].
  intros i. rewrite list_elem_of_fmap. split.
  - intros (k & -> & Hk). apply elem_of_seq in Hk. apply written_slot. lia.
  - intros Hw. destruct (written_slot_of _ _ Hw) as [Hslot Hk].
    exists (eligible_below i). split; [symmetry; exact Hslot |].
    apply elem_of_seq. lia.
Qed.

Lemma extract_reads_what_embed_wrote_witness :
  is_js_string bom_text /\
  exists data',
    encodeTextInImage white_buffer bom_text = (data', Done tt) /\
    fst (decodeTextFromImage data') = slot <$> seq 0 72 /\
    snd (decodeTextFromImage data') = snd (binaryToUTF8Text (textToUTF8Binary bom_text)).
Proof.
  assert (Hs : is_js_string bom_text) by (repeat constructor; unfold is_code_unit; lia).
  assert (Henc : encodeTextInImage white_buffer bom_text
                 = (fst (encodeTextInImage white_buffer bom_text), Done tt))
    by (vm_compute; reflexivity).
  refine (conj Hs (ex_intro _ _ (conj Henc _))).
  destruct (extract_reads_what_embed_wrote white_buffer bom_text _ Hs Henc) as (H1 & _ & H2).
  exact (conj H1 H2).
Defined.

(** X7: Whenever the embed of a well-formed string that does not start with
    U+FEFF succeeds, on a buffer of any length, the extraction returns the
    string. *)
Theorem extract_recovers_embedded_text (data : list Z) text data' :
  is_js_string text -> isWellFormed text = true -> head text <> Some 0xFEFF ->
  encodeTextInImage data text = (data', Done tt) ->
  snd (decodeTextFromImage data') = Done text.
Proof.
  intros Hs Hwf Hbom Henc.
  destruct (extract_after_embed data text data' Hs Henc) as (_ & _ & _ & E).
  rewrite E, snd_pair.
  rewrite binaryToUTF8Text_textToUTF8Binary by assumption.
  rewrite TextDecoder_decode_encode by assumption. apply snd_pair.
Qed.

Lemma extract_recovers_embedded_text_witness :
  is_js_string hello /\ isWellFormed hello = true /\ head hello <> Some 0xFEFF /\
  exists data',
    encodeTextInImage white_buffer hello = (data', Done tt) /\
    snd (decodeTextFromImage data') = Done hello.
Proof.
  assert (Hs : is_js_string hello) by (repeat constructor; unfold is_code_unit; lia).
  assert (Hbom : head hello <> Some 0xFEFF) by discriminate.
  assert (Henc : encodeTextInImage white_buffer hello
                 = (fst (encodeTextInImage white_buffer hello), Done tt))
    by (vm_compute; reflexivity).
  refine (conj Hs (conj eq_refl (conj Hbom (ex_intro _ _ (conj Henc _))))).
  exact (extract_recovers_embedded_text white_buffer hello _ Hs eq_refl Hbom Henc).
Defined.

(** X8: A second embed on the same buffer, of a well-formed string that
    does not start with U+FEFF, replaces the first message: the extraction
    returns the second string, whatever the first one was and however
    long. *)
Theorem last_embed_wins (data : list Z) text1 text2 data1 data2 :
  is_js_string text1 ->
  is_js_string text2 -> isWellFormed text2 = true -> head text2 <> Some 0xFEFF ->
  encodeTextInImage data text1 = (data1, Done tt) ->
  encodeTextInImage data1 text2 = (data2, Done tt) ->
  length data2 = length data /\
  snd (decodeTextFromImage data2) = Done text2.
Proof.
  intros Hs1 Hs2 Hwf Hbom Henc1 Henc2.
  destruct (extract_after_embed data text1 data1 Hs1 Henc1) as (Hl1 & _).
  destruct (extract_after_embed data1 text2 data2 Hs2 Henc2) as (Hl2 & _ & _ & E).
  split; [congruence |].
  rewrite E, snd_pair.
  rewrite binaryToUTF8Text_textToUTF8Binary by assumption.
  rewrite TextDecoder_decode_encode by assumption. apply snd_pair.
Qed.

Lemma last_embed_wins_witness :
  is_js_string hello /\ is_js_string hi /\ isWellFormed hi = true /\
  head hi <> Some 0xFEFF /\
  exists data1 data2,
    encodeTextInImage white_buffer hello = (data1, Done tt) /\
    encodeTextInImage data1 hi = (data2, Done tt) /\
    snd (decodeTextFromImage data2) = Done hi.
Proof.
  assert (Hs1 : is_js_string hello) by (repeat constructor; unfold is_code_unit; lia).
  assert (Hs2 : is_js_string hi) by (repeat constructor; unfold is_code_unit; lia).
  assert (Hbom : head hi <> Some 0xFEFF) by discriminate.
  assert (Henc1 : encodeTextInImage white_buffer hello
                  = (fst (encodeTextInImage white_buffer hello), Done tt))
    by (vm_compute; reflexivity).
  assert (Henc2 : encodeTextInImage (fst (encodeTextInImage white_buffer hello)) hi
                  = (fst (encodeTextInImage (fst (encodeTextInImage white_buffer hello)) hi),
                     Done tt))
    by (vm_compute; reflexivity).
  refine (conj Hs1 (conj Hs2 (conj eq_refl (conj Hbom
            (ex_intro _ _ (ex_intro _ _ (conj Henc1 (conj Henc2 _)))))))).
  exact (proj2 (last_embed_wins white_buffer hello hi _ _ Hs1 Hs2 eq_refl Hbom Henc1 Henc2)).
Defined.

End ServiceProperties.

Section ExtractorProperties.

(** X9: Every extraction ends with a text or with one of three failures; the
    two ran-out-of-image-data failures and the invalid-length failure of
    [decodeTextFromImage] never occur, and the buffer is reported too small
    exactly when it has fewer than 32 eligible bits. *)
Theorem extract_outcomes data :
  let outcome := snd (decodeTextFromImage data) in
  ((exists text, outcome = Done text) \/
   outcome = Failed BufferTooSmall \/
   outcome = Failed (DeclaredLengthExceedsCapacity
                       (length_field data) (maxEmbeddableBits data - 32)) \/
   outcome = Failed InvalidEncoding) /\
  (outcome = Failed BufferTooSmall <-> (maxEmbeddableBits data < 32)%nat) /\
  outcome <> Failed LengthReadOverrun /\
  (forall n, outcome <> Failed (InvalidLength n)) /\
  (forall expected got, outcome <> Failed (MessageReadOverrun expected got)).
Proof.
  cbv zeta. rewrite decodeTextFromImage_spec.
  destruct (Nat.ltb_spec (maxEmbeddableBits data) 32) as [Hsmall | Hcap].
  { rewrite snd_pair. repeat split; try discriminate; auto. }
  cbv zeta.
  destruct (length_field data =? 0).
  { rewrite snd_pair. repeat split; try discriminate; try lia; eauto. }
  destruct (Z.of_nat (maxEmbeddableBits data - 32) <? length_field data).
  { rewrite snd_pair. repeat split; try discriminate; try lia; auto. }
  rewrite snd_pair, binaryToUTF8Text_spec. cbv zeta.
  destruct (Encoding.TextDecoder_decode _); rewrite snd_pair;
    repeat split; try discriminate; try lia; eauto.
Qed.

(** X10: The extractor reads inside the buffer, at increasing non-alpha
    indices, and never more bytes than the buffer has eligible bits. *)
Theorem extract_reads_in_bounds data :
  exists m : nat,
    fst (decodeTextFromImage data) = slot <$> seq 0 m /\
    (m <= maxEmbeddableBits data)%nat /\
    Forall (fun i => (i < length data)%nat) (fst (decodeTextFromImage data)).
Proof.
  assert (Hin : forall m : nat, (m <= maxEmbeddableBits data)%nat ->
            Forall (fun i => (i < length data)%nat) (slot <$> seq 0 m)).
  { intros m Hm. rewrite Forall_fmap. apply Forall_forall. intros k Hk.
    apply list_elem_of_In, elem_of_seq in Hk. unfold compose.
    apply (written_in_bounds data m); [exact Hm | apply written_slot; lia]. }
  pose proof (length_field_nonneg data) as Hnn.
  rewrite decodeTextFromImage_spec.
  destruct (Nat.ltb_spec (maxEmbeddableBits data) 32) as [Hsmall | Hcap].
  { exists 0%nat. rewrite fst_pair. split; [reflexivity |]. split; [lia | constructor]. }
  cbv zeta.
  destruct (length_field data =? 0).
  { exists 32%nat. rewrite fst_pair. split; [reflexivity |]. split; [lia | apply Hin; lia]. }
  destruct (Z.ltb_spec (Z.of_nat (maxEmbeddableBits data - 32)) (length_field data)).
  { exists 32%nat. rewrite fst_pair. split; [reflexivity |]. split; [lia | apply Hin; lia]. }
  exists (32 + Z.to_nat (length_field data))%nat. rewrite fst_pair.
  split; [reflexivity |]. split; [lia | apply Hin; lia].
Qed.

Lemma lsb_char_ext (d1 d2 : list Z) (l : list nat) :
  (forall i, (i mod 4 <> 3)%nat -> lsb d1 i = lsb d2 i) ->
  lsb_char d1 <$> l = lsb_char d2 <$> l.
Proof.
  intros H. induction l as [| k l IH]; [reflexivity |].
  rewrite !fmap_cons, IH. f_equal. unfold lsb_char.
  rewrite (H (slot k) (slot_not_alpha k)). reflexivity.
Qed.

(** X11: The extraction depends only on the length of the buffer and on the
    least-significant bits of its non-alpha bytes: the upper seven bits
    of every byte and the whole alpha channel have no influence. *)
Theorem extract_depends_on_lsbs_only (d1 d2 : list Z) :
  length d1 = length d2 ->
  (forall i, (i mod 4 <> 3)%nat -> lsb d1 i = lsb d2 i) ->
  decodeTextFromImage d1 = decodeTextFromImage d2.
Proof.
  intros Hlen Hlsb.
  assert (Hcap : maxEmbeddableBits d1 = maxEmbeddableBits d2)
    by (unfold maxEmbeddableBits; rewrite Hlen; reflexivity).
  assert (Hfield : length_field d1 = length_field d2)
    by (rewrite <- !prefix_value, (lsb_char_ext d1 d2 _ Hlsb); reflexivity).
  rewrite !decodeTextFromImage_spec. cbv zeta. rewrite Hcap, Hfield.
  rewrite (lsb_char_ext d1 d2 _ Hlsb). reflexivity.
Qed.

Lemma extract_depends_on_lsbs_only_witness :
  length white_buffer = length grey_buffer /\
  decodeTextFromImage white_buffer = decodeTextFromImage grey_buffer.
Proof.
  refine (conj eq_refl _).
  apply (extract_depends_on_lsbs_only white_buffer grey_buffer eq_refl).
  intros i _. unfold lsb, white_buffer, grey_buffer.
  destruct (decide (i < 96)%nat) as [Hi | Hi].
  - rewrite !lookup_replicate_2 by exact Hi. reflexivity.
  - rewrite !(proj1 (lookup_replicate_None _ _ _)) by lia. reflexivity.
Defined.

End ExtractorProperties.

Section EmbedderProperties.

Lemma embed_bit_idempotent x b :
  b = 0 \/ b = 1 -> embed_bit (embed_bit x b) b = embed_bit x b.
Proof.
  intros Hb.
  destruct (embed_bit_spec x b Hb) as (H1 & _ & _ & H4).
  destruct (embed_bit_spec (embed_bit x b) b Hb) as (H1' & _).
  rewrite H1', H4, <- H1. reflexivity.
Qed.

(** X12: Embedding the same string again changes nothing. *)
Theorem embed_idempotent (data : list Z) text data' :
  is_js_string text ->
  encodeTextInImage data text = (data', Done tt) ->
  encodeTextInImage data' text = (data', Done tt).
Proof.
  intros Hs Henc.
  destruct (encodeTextInImage_done_inv data text data' Henc) as (payload & E & Hfit & Hl & Hlook).
  destruct (fullBinaryPayload_spec text payload Hs E) as (_ & Hbits & _).
  assert (Hfit' : (length payload <= maxEmbeddableBits data')%nat)
    by (unfold maxEmbeddableBits in *; rewrite Hl; exact Hfit).
  rewrite (encodeTextInImage_done data' text payload E Hfit'). f_equal.
  destruct (embed_walk_done data' payload Hfit') as (_ & _ & _ & _ & Hlook').
  apply list_eq. intros i. rewrite Hlook', Hlook.
  destruct (decide (written (length payload) i)) as [Hw | _]; [| reflexivity].
  cbn [default from_option id]. f_equal.
  destruct Hw as [_ Hk].
  destruct (lookup_lt_is_Some_2 payload _ Hk) as [c Hc].
  assert (Hbit : is_bit_char c) by (eapply Forall_lookup_1; eassumption).
  rewrite (bitToEmbed_bit payload _ c Hc Hbit).
  apply embed_bit_idempotent. unfold is_bit_char, chr_0, chr_1 in *. lia.
Qed.

Lemma embed_idempotent_witness :
  is_js_string hello /\
  exists data',
    encodeTextInImage white_buffer hello = (data', Done tt) /\
    encodeTextInImage data' hello = (data', Done tt).
Proof.
  assert (Hs : is_js_string hello) by (repeat constructor; unfold is_code_unit; lia).
  assert (Henc : encodeTextInImage white_buffer hello
                 = (fst (encodeTextInImage white_buffer hello), Done tt))
    by (vm_compute; reflexivity).
  refine (conj Hs (ex_intro _ _ (conj Henc _))).
  exact (embed_idempotent white_buffer hello _ Hs Henc).
Defined.

(** X13: A successful embed on a buffer of bytes gives a buffer of bytes of
    the same length in which every byte differs from the original by at
    most one. *)
Theorem embed_changes_bytes_by_at_most_one (data : list Z) text data' :
  is_js_string text ->
  Forall is_byte data ->
  encodeTextInImage data text = (data', Done tt) ->
  length data' = length data /\
  Forall is_byte data' /\
  forall i old new, data !! i = Some old -> data' !! i = Some new ->
                    -1 <= new - old <= 1.
Proof.
  intros Hs Hbytes Henc.
  destruct (embed_result data text data' Hs Henc)
    as (payload & _ & _ & _ & _ & Hl & Hbits & Hother).
  assert (Hstep : forall i old new, data !! i = Some old -> data' !! i = Some new ->
            is_byte new /\ -1 <= new - old <= 1).
  { intros i old new Hold Hnew.
    assert (Hob : is_byte old) by (eapply Forall_lookup_1; eassumption).
    unfold is_byte in *.
    destruct (decide (written (length payload) i)) as [Hw | Hn].
    - destruct (written_slot_of _ _ Hw) as [Hslot Hk].
      destruct (Hbits _ Hk) as (c & old' & _ & Hbit & Hold' & Hnew' & _).
      rewrite Hslot in Hold', Hnew'.
      assert (old' = old) by congruence. subst old'.
      assert (Hb : c - chr_0 = 0 \/ c - chr_0 = 1)
        by (unfold is_bit_char, chr_0, chr_1 in *; lia).
      assert (new = Z.lor (Z.land old 0xFE) (c - chr_0)) by congruence. subst new.
      rewrite land_254, lor_bit by exact Hb. lia.
    - rewrite (Hother i Hn) in Hnew. assert (new = old) by congruence. subst new. lia. }
  split; [exact Hl |]. split.
  - apply Forall_lookup. intros i new Hnew.
    assert (Hi : (i < length data)%nat) by (rewrite <- Hl; eapply lookup_lt_Some; eassumption).
    destruct (lookup_lt_is_Some_2 data i Hi) as [old Hold].
    apply (Hstep i old new Hold Hnew).
  - intros i old new Hold Hnew. apply (Hstep i old new Hold Hnew).
Qed.

Lemma embed_changes_bytes_by_at_most_one_witness :
  is_js_string hello /\ Forall is_byte white_buffer /\
  exists data',
    encodeTextInImage white_buffer hello = (data', Done tt) /\
    length data' = length white_buffer /\ Forall is_byte data'.
Proof.
  assert (Hs : is_js_string hello) by (repeat constructor; unfold is_code_unit; lia).
  assert (Hb : Forall is_byte white_buffer)
    by (apply Forall_replicate; unfold is_byte; lia).
  assert (Henc : encodeTextInImage white_buffer hello
                 = (fst (encodeTextInImage white_buffer hello), Done tt))
    by (vm_compute; reflexivity).
  refine (conj Hs (conj Hb (ex_intro _ _ (conj Henc _)))).
  destruct (embed_changes_bytes_by_at_most_one white_buffer hello _ Hs Hb Henc) as (H1 & H2 & _).
  exact (conj H1 H2).
Defined.

End EmbedderProperties.

Section ExtractedLength.

(** X14: A text that the extractor returns has at most one code unit for each
    eight bits the buffer can hold after the length prefix. *)
Theorem extracted_text_length data text :
  snd (decodeTextFromImage data) = Done text ->
  (8 * length text <= maxEmbeddableBits data - 32)%nat.
Proof.
  pose proof (length_field_nonneg data) as Hnn.
  rewrite decodeTextFromImage_spec.
  destruct (Nat.ltb_spec (maxEmbeddableBits data) 32) as [Hsmall | Hcap].
  { rewrite snd_pair. discriminate. }
  cbv zeta.
  destruct (length_field data =? 0).
  { rewrite snd_pair. intros H. injection H as <-. cbn [length]. lia. }
  destruct (Z.ltb_spec (Z.of_nat (maxEmbeddableBits data - 32)) (length_field data))
    as [Hbig | Hfit].
  { rewrite snd_pair. discriminate. }
  rewrite snd_pair, binaryToUTF8Text_spec. cbv zeta.
  destruct (Encoding.TextDecoder_decode _) as [t |] eqn:E; rewrite snd_pair; [| discriminate].
  intros Ht. injection Ht as ->.
  destruct (TextDecoder_decode_inv _ _ E) as (Hs & _ & Henc).
  pose proof (TextEncoder_encode_length text Hs) as [Hlow _].
  assert (Hbytes : (length (Encoding.TextEncoder_encode text)
                    <= Z.to_nat (length_field data) / 8)%nat).
  { assert (Hchunks : forall n (s : js_string), length (chunks n s) = n)
      by (induction n; intros; cbn [chunks length]; auto).
    assert (Hn : length (JS.ToUint8 <$> ((fun c => JS.parseInt c 2) <$>
               chunks (length (lsb_char data <$> seq 32 (Z.to_nat (length_field data))) / 8)
                      (lsb_char data <$> seq 32 (Z.to_nat (length_field data)))))
               = (Z.to_nat (length_field data) / 8)%nat)
      by (rewrite !length_fmap, Hchunks, length_seq; reflexivity).
    destruct Henc as [Hsame | Hbom].
    - rewrite Hsame, Hn. lia.
    - rewrite Hbom, length_app in Hn. lia. }
  assert (Z.to_nat (length_field data) <= maxEmbeddableBits data - 32)%nat by lia.
  lia.
Qed.

Lemma extracted_text_length_witness :
  exists data',
    snd (decodeTextFromImage data') = Done hello /\
    (8 * length hello <= maxEmbeddableBits data' - 32)%nat.
Proof.
  exists (fst (encodeTextInImage white_buffer hello)).
  assert (H : snd (decodeTextFromImage (fst (encodeTextInImage white_buffer hello)))
              = Done hello) by (vm_compute; reflexivity).
  exact (conj H (extracted_text_length _ hello H)).
Defined.

End ExtractedLength.

(** ** The service as a whole *)

Section WholeService.

Lemma image_capacity width height data :
  image_data_of width height data ->
  Z.of_nat (maxEmbeddableBits data) = 3 * (width * height).
Proof. unfold image_data_of, maxEmbeddableBits. lia. Qed.

(** X15: For an image that was loaded and whose pixels were obtained, the whole
    embed succeeds exactly when the image passes the canvas-area guard and
    32 + bitlength(utf8(text)) is at most three bits per pixel; in every
    other outcome on the pixels the buffer is left as it was. *)
Theorem embed_file_succeeds_iff_fits width height data text :
  image_data_of width height data -> is_js_string text ->
  ((exists data',
      encodeTextInImageFile (Loaded width height (ImageData data)) text
      = inr (data', Done tt)) <->
   (width * height <= MAX_CANVAS_AREA /\
    32 + Z.of_nat (bitlength text) <= 3 * (width * height))) /\
  (forall data' outcome,
     encodeTextInImageFile (Loaded width height (ImageData data)) text
     = inr (data', outcome) ->
     outcome <> Done tt -> data' = data).
Proof.
  intros Himg Hs. pose proof (image_capacity _ _ _ Himg) as Hcap.
  unfold encodeTextInImageFile.
  destruct (Z.ltb_spec MAX_CANVAS_AREA (width * height)) as [Hbig | Hok].
  { split; [split |].
    - intros (data' & H). discriminate.
    - intros [H _]. lia.
    - intros data' outcome H. discriminate. }
  split; [split |].
  - intros (data' & H). injection H as H.
    destruct (encodeTextInImage_done_inv data text data' H) as (payload & E & Hfit & _).
    destruct (fullBinaryPayload_spec text payload Hs E) as (Hlen & _).
    split; [exact Hok | lia].
  - intros [_ Hfit].
    assert (Hlt : Z.of_nat (bitlength text) < 2 ^ 32)
      by (unfold MAX_CANVAS_AREA in Hok; lia).
    destruct (fullBinaryPayload_fits text Hs Hlt) as (s & E & Hlen & _).
    eexists. f_equal. apply (encodeTextInImage_done data text _ E).
    rewrite length_app, Hlen, textToUTF8Binary_length by assumption. lia.
  - intros data' outcome H Hne. injection H as H.
    unfold encodeTextInImage in H.
    destruct (fullBinaryPayload text) as [e | payload]; [injection H as <- _; reflexivity |].
    destruct (Nat.ltb_spec (maxEmbeddableBits data) (length payload)) as [| Hfit];
      [injection H as <- _; reflexivity |].
    destruct (embed_walk_done data payload Hfit) as (Hex & _).
    rewrite Hex in H. injection H as _ <-. contradiction.
Qed.

Lemma embed_file_succeeds_iff_fits_witness :
  image_data_of 6 4 white_buffer /\ is_js_string hello /\
  exists data',
    encodeTextInImageFile (Loaded 6 4 (ImageData white_buffer)) hello
    = inr (data', Done tt).
Proof.
  assert (Himg : image_data_of 6 4 white_buffer) by (vm_compute; intuition discriminate).
  assert (Hs : is_js_string hello) by (repeat constructor; unfold is_code_unit; lia).
  refine (conj Himg (conj Hs _)).
  apply (proj1 (embed_file_succeeds_iff_fits 6 4 white_buffer hello Himg Hs)).
  vm_compute. split; discriminate.
Defined.

(** X16: The two calls of the service compose: when the whole embed of a
    well-formed string that does not start with U+FEFF succeeded on an
    image, the whole extraction on the resulting pixels of that image
    resolves with the string. *)
Theorem service_round_trip width height data text data' :
  is_js_string text -> Encoding.isWellFormed text = true -> head text <> Some 0xFEFF ->
  encodeTextInImageFile (Loaded width height (ImageData data)) text
  = inr (data', Done tt) ->
  exists reads,
    decodeTextFromImageFile (Loaded width height (ImageData data')) = inr (reads, Done text).
Proof.
  intros Hs Hwf Hbom. unfold encodeTextInImageFile, decodeTextFromImageFile.
  destruct (MAX_CANVAS_AREA <? width * height); [discriminate |].
  intros H. injection H as H.
  destruct (extract_after_embed data text data' Hs H) as (_ & _ & _ & E).
  rewrite E. eexists. do 2 f_equal.
  rewrite binaryToUTF8Text_textToUTF8Binary by assumption.
  rewrite TextDecoder_decode_encode by assumption. apply snd_pair.
Qed.

Lemma service_round_trip_witness :
  is_js_string hello /\ Encoding.isWellFormed hello = true /\
  head hello <> Some 0xFEFF /\
  exists data' reads,
    encodeTextInImageFile (Loaded 6 4 (ImageData white_buffer)) hello
    = inr (data', Done tt) /\
    decodeTextFromImageFile (Loaded 6 4 (ImageData data')) = inr (reads, Done hello).
Proof.
  assert (Hs : is_js_string hello) by (repeat constructor; unfold is_code_unit; lia).
  assert (Hbom : head hello <> Some 0xFEFF) by discriminate.
  assert (Henc : encodeTextInImageFile (Loaded 6 4 (ImageData white_buffer)) hello
                 = inr (fst (encodeTextInImage white_buffer hello), Done tt))
    by (vm_compute; reflexivity).
  destruct (service_round_trip 6 4 white_buffer hello _ Hs eq_refl Hbom Henc) as [reads H].
  refine (conj Hs (conj eq_refl (conj Hbom (ex_intro _ _ (ex_intro _ reads (conj Henc H)))))).
Defined.

End WholeService.
